(** * HuMo lip-sync suppression nodes

    A shallow embedding of [nodes.py]: the band editor
    [HuMoLipsyncSuppress.apply] and the loudness gate
    [HuMoAudioThresholdSwitcher.analyze], followed by the properties
    established for them.

    - Tensor elements are values of an abstract scalar type (class
      [Scalar]); its instance is IEEE-754 binary32 on [spec_float], what
      torch computes in [float32].  The order in which a reduction adds its
      terms is the library's: the instance takes the reduction as an
      argument, and runs with the sequential one.
    - Python objects live in a store; a mapping holds references,
      so that copying a dict is shallow and aliasing is visible.
    - Exceptions are results of an error-and-state monad. *)

From Stdlib Require Import ZArith QArith Lia.
From Stdlib Require Import Floats.SpecFloat.
From stdpp Require Import gmap strings list.

Set Default Proof Using "Type".

(** ** Scalars *)

(** The arithmetic a tensor of some dtype offers.  [of_Q] is
    [torch.tensor(c, dtype=dtype)] for a Python literal [c]; [of_nat] turns an
    element count into a scalar (the divisor of [mean]); [fsum] is the
    reduction inside [sum], [mean] and [std]; [fltb] is [<] on the values,
    false when either side is NaN; [fcast] converts a value held in another
    dtype ([.float()]). *)
Class Scalar (A : Type) := {
  of_Q : Q → A;
  of_nat : nat → A;
  fadd : A → A → A;
  fsum : list A → A;
  fsub : A → A → A;
  fmul : A → A → A;
  fdiv : A → A → A;
  fsqrt : A → A;
  fltb : A → A → bool;
  fisnan : A → bool;
  fisinf : A → bool;
  fcast : A → A
}.

(** IEEE-754 binary32, round to nearest even: [prec = 24], [emax = 128]. *)
Module F32.
Definition prec : Z := 24.
Definition emax : Z := 128.

Definition of_Z (z : Z) : spec_float := binary_normalize prec emax z 0 false.

(** A decimal literal [n/d]: the correctly rounded quotient of [n] by [d]
    (both exactly representable for the literals of the source). *)
Definition of_Q (q : Q) : spec_float :=
  SFdiv prec emax (of_Z (Qnum q)) (of_Z (Zpos (Qden q))).

Definition of_nat (n : nat) : spec_float := of_Z (Z.of_nat n).

Definition isnan (x : spec_float) : bool :=
  match x with S754_nan => true | _ => false end.

Definition isinf (x : spec_float) : bool :=
  match x with S754_infinity _ => true | _ => false end.

(** Rounding a wider float to binary32. *)
Definition cast (x : spec_float) : spec_float :=
  match x with
  | S754_finite s m e => binary_round prec emax s m e
  | _ => x
  end.

(** A reduction that adds from left to right, starting from [0]. *)
Definition sum_seq (l : list spec_float) : spec_float :=
  foldl (SFadd prec emax) (of_nat 0) l.

(** The number a finite value stands for, [m · 2^e] with its sign; both
    zeros stand for 0. *)
Definition to_Q (x : spec_float) : Q :=
  match x with
  | S754_finite s m e =>
      let z := if s then Z.neg m else Z.pos m in
      match e with
      | Z.neg k => z # (2 ^ k)
      | _ => inject_Z (z * 2 ^ e)
      end
  | _ => 0
  end.

(** The order of the values, whatever the format each side is held in (a
    [float32] element against a Python [float]): [None] when either side is
    NaN. *)
Definition compare (x y : spec_float) : option comparison :=
  match x, y with
  | S754_nan, _ | _, S754_nan => None
  | S754_infinity s, S754_infinity s' =>
      Some (match s, s' with
            | true, false => Lt
            | false, true => Gt
            | _, _ => Eq
            end)
  | S754_infinity s, _ => Some (if s then Lt else Gt)
  | _, S754_infinity s => Some (if s then Gt else Lt)
  | _, _ => Some (to_Q x ?= to_Q y)%Q
  end.

Definition ltb (x y : spec_float) : bool :=
  match compare x y with Some Lt => true | _ => false end.

Definition leb (x y : spec_float) : bool :=
  match compare x y with Some (Lt | Eq) => true | _ => false end.

(** The values binary32 holds, and those among them that are numbers. *)
Definition valid (x : spec_float) : bool := valid_binary prec emax x.

Definition is_finite (x : spec_float) : bool :=
  match x with S754_zero _ | S754_finite _ _ _ => true | _ => false end.
End F32.

(** IEEE-754 binary64, the format of a Python [float]. *)
Module F64.
Definition prec : Z := 53.
Definition emax : Z := 1024.

Definition of_Z (z : Z) : spec_float := binary_normalize prec emax z 0 false.

Definition of_Q (q : Q) : spec_float :=
  SFdiv prec emax (of_Z (Qnum q)) (of_Z (Zpos (Qden q))).
End F64.

(** Binary32 with the reduction [reduce]. *)
Definition f32_with (reduce : list spec_float → spec_float) :
    Scalar spec_float := {|
  of_Q := F32.of_Q;
  of_nat := F32.of_nat;
  fadd := SFadd F32.prec F32.emax;
  fsum := reduce;
  fsub := SFsub F32.prec F32.emax;
  fmul := SFmul F32.prec F32.emax;
  fdiv := SFdiv F32.prec F32.emax;
  fsqrt := SFsqrt F32.prec F32.emax;
  fltb := F32.ltb;
  fisnan := F32.isnan;
  fisinf := F32.isinf;
  fcast := F32.cast
|}.

(** Binary32 as it is run here, adding from left to right. *)
#[export] Instance f32_scalar : Scalar spec_float := f32_with F32.sum_seq.

(** ** Tensors *)

(** A dense tensor: its shape and its elements in row-major order. *)
Record tensor (A : Type) := Tensor { shape : list nat; data : list A }.
Arguments Tensor {A} shape data.
Arguments shape {A} t.
Arguments data {A} t.

Section TensorOps.
Context {A : Type}.

Definition ndim (x : tensor A) : nat := length (shape x).

Definition numel (s : list nat) : nat := foldr Nat.mul 1 s.

(** The storage holds exactly as many elements as the shape says. *)
Definition tensor_wf (x : tensor A) : Prop :=
  length (data x) = numel (shape x).

(** [n] consecutive rows of [k] elements. *)
Fixpoint chunks (n k : nat) (l : list A) : list (list A) :=
  match n with
  | 0 => []
  | S n' => take k l :: chunks n' k (drop k l)
  end.

(** A [T, B, C] tensor as [T] frames of [B] rows of [C] channels. *)
Definition view3 (T B C : nat) (d : list A) : list (list (list A)) :=
  chunks B C <$> chunks T (B * C) d.

Definition flat3 (v : list (list (list A))) : list A :=
  mjoin (mjoin <$> v).

Definition map3 (f : A → A) (v : list (list (list A))) : list (list (list A)) :=
  (λ frame : list (list A), (λ row : list A, f <$> row) <$> frame) <$> v.

Definition zip3 (f : A → A → A) (v w : list (list (list A))) :
    list (list (list A)) :=
  zip_with (zip_with (zip_with f)) v w.
End TensorOps.

(** ** Configuration: the class-level presets *)

Record config := Config {
  PRESET_GAINS : list Q;
  PRESET_EMA_BETA : Q;
  PRESET_PRESERVE_RMS : bool;
  PRESET_ALPHA_MIX : Q;
  PRESET_GLOBAL_GAIN : Q;
  PRESET_CLAMP_STD : Q
}.

(** The values written in the class body. *)
Definition preset : config := {|
  PRESET_GAINS := [4; 4; 1 # 2; 1 # 100; 1 # 100]%Q;
  PRESET_EMA_BETA := (9 # 10)%Q;
  PRESET_PRESERVE_RMS := false;
  PRESET_ALPHA_MIX := 1%Q;
  PRESET_GLOBAL_GAIN := 1%Q;
  PRESET_CLAMP_STD := 0%Q
|}.

(** [a > b] and [a != b] on Python literals. *)
Definition Qgtb (a b : Q) : bool := negb (Qle_bool a b).
Definition Qneb (a b : Q) : bool := negb (Qeq_bool a b).

(** ** Exceptions and the store *)

Inductive value_error :=
  | MissingKey                    (* "Missing key 'humo_audio_emb' ..." *)
  | BadShape (got : list nat)     (* "humo_audio_emb expected shape [T,5,C], got ..." *)
  | UnsupportedFormat.            (* "Unsupported audio format: ..." *)

Inductive exn :=
  | ValueError (e : value_error)
  | TypeError        (* [dict(o)] on an object that is no mapping *)
  | AttributeError   (* [.ndim] on an object that is no tensor *)
  | RuntimeError     (* [view(1, 5, 1)] on a tensor without 5 elements *)
  | TorchError       (* whatever [torch.tensor] raises on bad input *)
  | DanglingRef.     (* a reference to no object: excluded by well-formed stores *)

Inductive res (X : Type) := Ok (x : X) | Raise (e : exn).
Arguments Ok {X} x.
Arguments Raise {X} e.

Definition loc := positive.

Inductive obj (A : Type) :=
  | ODict (d : gmap string loc)
  | OTensor (x : tensor A)
  | OOpaque (tag : nat).
Arguments ODict {A} d.
Arguments OTensor {A} x.
Arguments OOpaque {A} tag.

Section Monad.
Context {A : Type}.

(** A computation reads and extends the store and returns or raises. *)
Definition M (X : Type) : Type := gmap loc (obj A) → res X * gmap loc (obj A).

#[export] Instance M_ret : MRet M := λ X x h, (Ok x, h).

(** An exception ends the computation; the store keeps what was done. *)
#[export] Instance M_bind : MBind M :=
  λ X Y k m h, match m h with
               | (Ok x, h') => k x h'
               | (Raise e, h') => (Raise e, h')
               end.

Definition raise {X} (e : exn) : M X := λ h, (Raise e, h).

Definition lift {X} (r : res X) : M X := λ h, (r, h).

(** A new object at an unused location. *)
Definition alloc (o : obj A) : M loc :=
  λ h, let l := fresh (dom h) in (Ok l, <[l := o]> h).

Definition deref (l : loc) : M (obj A) :=
  λ h, match h !! l with
       | Some o => (Ok o, h)
       | None => (Raise DanglingRef, h)
       end.

(** In-place update of the object at [l]. *)
Definition store (l : loc) (o : obj A) : M unit :=
  λ h, (Ok tt, <[l := o]> h).
End Monad.


(** ** The band editor: [HuMoLipsyncSuppress] *)

Definition key : string := "humo_audio_emb".

(** The default [eps] of [_rms], also the floor of [std] in the clamp. *)
Definition eps_default : Q := 1 # 1000000.

Section Editor.
Context {A : Type} `{Scalar A}.

(** A frame [x[t]]: 5 rows (bands) of [C] channels. *)
Local Abbreviation frame := (list (list A)).
Local Abbreviation tensor3 := (list (list (list A))).

(** [c * p] for a 0-dim tensor [c] and a frame [p]. *)
Definition scale (c : A) (p : frame) : frame :=
  (λ row : list A, fmul c <$> row) <$> p.

(** [Tensor.sum()], in the order in which [fsum] adds. *)
Definition total (l : list A) : A := fsum l.

Definition mean (l : list A) : A := fdiv (total l) (of_nat (length l)).

(** [Tensor.std()]: the sample deviation, with Bessel's correction. *)
Definition std (l : list A) : A :=
  let m := mean l in
  fsqrt (fdiv (total ((λ v, fmul (fsub v m) (fsub v m)) <$> l))
              (of_nat (length l - 1))).

(** [clamp_min]: the larger of the two, a NaN element staying NaN. *)
Definition clamp_min (x m : A) : A := if fltb x m then m else x.

(** [Tensor.clamp(lo, hi)], element by element; NaN propagates. *)
Definition clamp (lo hi x : A) : A :=
  if fisnan x then x
  else if fisnan lo then lo
  else if fisnan hi then hi
  else let y := if fltb x lo then lo else x in
       if fltb hi y then hi else y.

(** [x.pow(2).mean(dim=-1, keepdim=True).sqrt().clamp_min(eps)]: one value
    per (time, band), kept as a channel axis of length 1. *)
Definition _rms (x : tensor3) (eps : Q) : tensor3 :=
  (λ p : frame,
     (λ row : list A,
        [clamp_min (fsqrt (mean ((λ v, fmul v v) <$> row))) (of_Q eps)]) <$> p)
  <$> x.

(** The body of [for t in range(1, x.shape[0])]: [rest] holds the frames
    [x[t]] still to come, [s] the running state; the result is what the
    loop appends to [out_seq]. *)
Fixpoint ema_loop (beta one_m : A) (s : frame) (rest : list frame) : tensor3 :=
  match rest with
  | [] => []
  | xt :: rest' =>
      let s' := zip_with (zip_with fadd) (scale beta s) (scale one_m xt) in
      s' :: ema_loop beta one_m s' rest'
  end.

(** Temporal EMA smoothing (lines 76-87); [T] is [x.shape[0]]. *)
Definition smooth (ema_beta : Q) (T : nat) (x : tensor3) : tensor3 :=
  if (1 <? T) && Qgtb ema_beta 0 then
    match x with
    | [] => []
    | x0 :: rest =>
        let beta := of_Q ema_beta in
        let one_m := fsub (of_Q 1) beta in
        x0 :: ema_loop beta one_m x0 rest
    end
  else x.

(** [x_smooth * gains], the gains viewed as [1, 5, 1]. *)
Definition mul_gains (x : tensor3) (gains : list A) : tensor3 :=
  (λ p : frame,
     zip_with (λ (row : list A) (g : A), (λ v, fmul v g) <$> row) p gains)
  <$> x.

(** Broadcasting along the last axis: an axis of length 1 is repeated. *)
Definition bcast_last (f : A → A → A) (row r : list A) : list A :=
  match r with
  | [r0] => (λ v, f v r0) <$> row
  | _ => zip_with f row r
  end.

(** RMS preservation (lines 93-96). *)
Definition preserve_rms (x_orig x_edit : tensor3) : tensor3 :=
  let rms_orig := _rms x_orig eps_default in
  let rms_edit := _rms x_edit eps_default in
  zip_with (zip_with (bcast_last fmul)) x_edit (zip3 fdiv rms_orig rms_edit).

(** Residual blend (lines 99-100). *)
Definition blend (alpha_mix : Q) (x_orig x_edit : tensor3) : tensor3 :=
  let alpha := of_Q alpha_mix in
  zip3 fadd (map3 (fmul (fsub (of_Q 1) alpha)) x_orig) (map3 (fmul alpha) x_edit).

(** Global gain (lines 103-104). *)
Definition global_gain (g : Q) (x_mixed : tensor3) : tensor3 :=
  if Qneb g 1 then map3 (λ v, fmul v (of_Q g)) x_mixed else x_mixed.

(** Clamp to [k] standard deviations around the mean (lines 107-112). *)
Definition clamp_std (k : Q) (x_mixed : tensor3) : tensor3 :=
  if Qgtb k 0 then
    let mean := mean (flat3 x_mixed) in
    let std := clamp_min (std (flat3 x_mixed)) (of_Q eps_default) in
    let lo := fsub mean (fmul (of_Q k) std) in
    let hi := fadd mean (fmul (of_Q k) std) in
    map3 (clamp lo hi) x_mixed
  else x_mixed.

(** Lines 76-96: [x_edit] as it enters the blend. *)
Definition edited (cfg : config) (T : nat) (x_orig : tensor3) : tensor3 :=
  let gains := of_Q <$> PRESET_GAINS cfg in
  let x_smooth := smooth (PRESET_EMA_BETA cfg) T x_orig in
  let x_edit := mul_gains x_smooth gains in
  if PRESET_PRESERVE_RMS cfg then preserve_rms x_orig x_edit else x_edit.

(** Lines 69-112 on a tensor that passed the shape test: [T, 5, C].  Every
    step is elementwise or broadcasts against [x], so the result carries the
    shape of [x]. *)
Definition edit (cfg : config) (x : tensor A) : res (tensor A) :=
  let T := shape x !!! 0 in
  let C := shape x !!! 2 in
  let x_orig := view3 T 5 C (data x) in
  if negb (length (PRESET_GAINS cfg) =? 5) then Raise RuntimeError
  else
    let x_edit := edited cfg T x_orig in
    let x_mixed := blend (PRESET_ALPHA_MIX cfg) x_orig x_edit in
    let x_mixed := global_gain (PRESET_GLOBAL_GAIN cfg) x_mixed in
    let x_mixed := clamp_std (PRESET_CLAMP_STD cfg) x_mixed in
    Ok (Tensor (shape x) (flat3 x_mixed)).

(** [HuMoLipsyncSuppress.apply]: [image_embeds] is a reference to the
    caller's mapping; the result is the reference held by the returned
    1-tuple. *)
Definition apply (cfg : config) (image_embeds : loc) (enabled : bool) : M (A:=A) loc :=
  if negb enabled then mret image_embeds
  else
    o ← deref image_embeds;
    match o with
    | ODict d =>
        embeds ← alloc (ODict d);
        match d !! key with
        | None => raise (ValueError MissingKey)
        | Some xl =>
            xo ← deref xl;
            match xo with
            | OTensor x =>
                if negb (ndim x =? 3) || negb (shape x !!! 1 =? 5)
                then raise (ValueError (BadShape (shape x)))
                else
                  x_mixed ← lift (edit cfg x);
                  xm ← alloc (OTensor x_mixed);
                  store embeds (ODict (<[key := xm]> d));;
                  mret embeds
            | _ => raise AttributeError
            end
        end
    | _ => raise TypeError
    end.
End Editor.

(** ** The loudness gate: [HuMoAudioThresholdSwitcher] *)

#[local] Set Warnings "-register-all".

(** The Python values an audio input can be. *)
Inductive pyobj (A : Type) :=
  | PyNum (v : A)                      (* int or float *)
  | PyTensor (x : tensor A)            (* torch.Tensor *)
  | PyNdarray (x : tensor A)           (* numpy.ndarray *)
  | PyList (items : list (pyobj A))
  | PyTuple (items : list (pyobj A))
  | PyNone.                            (* any other object *)
Arguments PyNum {A} v.
Arguments PyTensor {A} x.
Arguments PyNdarray {A} x.
Arguments PyList {A} items.
Arguments PyTuple {A} items.
Arguments PyNone {A}.

Section Gate.
Context {A : Type} `{Scalar A}.

(** [torch.tensor(o, dtype=torch.float32)], a function of the library and
    not of this program: [None] when it raises. *)
Variable torch_tensor : pyobj A → option (tensor A).

(** [Tensor.float()]. *)
Definition float (x : tensor A) : tensor A := Tensor (shape x) (fcast <$> data x).

(** [isinstance(o, (np.ndarray, torch.Tensor, list))]. *)
Definition is_array_or_list (o : pyobj A) : bool :=
  match o with
  | PyNdarray _ | PyTensor _ | PyList _ => true
  | _ => false
  end.

(** The branch for [list] and [tuple] (lines 162-175); nothing is caught
    here, so what [torch.tensor] raises reaches the caller. *)
Definition convert_sequence (audio : pyobj A) (items : list (pyobj A)) :
    res (tensor A) :=
  let direct (o : pyobj A) :=
    match torch_tensor o with
    | Some t => Ok t
    | None => Raise TorchError
    end in
  match items with
  | [_; audio_data] =>
      if is_array_or_list audio_data then
        match audio_data with
        | PyTensor x => Ok (float x)
        | PyNdarray x => Ok (float x)
        | _ => direct audio_data
        end
      else direct audio
  | _ => direct audio
  end.

Definition _convert_to_tensor (audio : pyobj A) : res (tensor A) :=
  match audio with
  | PyTensor x => Ok (float x)
  | PyNdarray x => Ok (float x)
  | PyList items | PyTuple items => convert_sequence audio items
  | _ =>
      match torch_tensor audio with
      | Some t => Ok t
      | None => Raise (ValueError UnsupportedFormat)
      end
  end.

(** The value before the test for NaN and infinity. *)
Definition raw_rms (audio_tensor : tensor A) : A :=
  let audio_flat := data audio_tensor in
  fsqrt (mean ((λ v, fmul v v) <$> audio_flat)).

Definition _calculate_rms (audio_tensor : tensor A) : A :=
  let rms := raw_rms audio_tensor in
  if fisnan rms || fisinf rms then of_Q 0 else rms.

(** [analyze]: [rms_value] is [rms.item()], the number the tensor holds as
    a Python [float]; [threshold] is a Python [float] too, and [<] compares
    the two numbers. *)
Definition analyze (audio : pyobj A) (threshold : A) (invert : bool) : res bool :=
  match _convert_to_tensor audio with
  | Raise e => Raise e
  | Ok audio_tensor =>
      let rms := _calculate_rms audio_tensor in
      let is_silent := fltb rms threshold in
      let enabled := if invert then negb is_silent else is_silent in
      Ok enabled
  end.
End Gate.

(** A model of [torch.tensor] on numbers and on rectangular nested sequences
    of numbers, used to run the gate. *)
Fixpoint torch_tensor_nested {A} `{Scalar A} (o : pyobj A) : option (tensor A) :=
  let stack (items : list (pyobj A)) :=
    ts ← mapM torch_tensor_nested items ;
    match ts with
    | [] => Some (Tensor [0] [])
    | t0 :: _ =>
        if forallb (λ t, bool_decide (shape t = shape t0)) ts
        then Some (Tensor (length ts :: shape t0) (mjoin (data <$> ts)))
        else None
    end in
  match o with
  | PyNum v => Some (Tensor [] [fcast v])
  | PyList items | PyTuple items => stack items
  | _ => None
  end.

(** ** Vocabulary of the statements *)

(** [p] has [B] rows of [C] elements; [v] has [T] such frames. *)
Definition shaped2 {A} (B C : nat) (p : list (list A)) : Prop :=
  length p = B ∧ Forall (λ row, length row = C) p.

Definition shaped3 {A} (T B C : nat) (v : list (list (list A))) : Prop :=
  length v = T ∧ Forall (shaped2 B C) v.

(** The shape test of line 66, passed. *)
Definition valid_shape {A} (x : tensor A) : Prop :=
  ndim x = 3 ∧ shape x !!! 1 = 5.

(** The element at (time, band, channel), [d] outside the tensor. *)
Definition elem {A} (d : A) (v : list (list (list A))) (t b c : nat) : A :=
  nth c (nth b (nth t v []) []) d.


(** The scan as the specification words it, for one band and channel:
    [s] starts at [x 0], and [s ← β·s + (1−β)·x t] for each [t ≥ 1]; the
    value at [t] is that [s]. *)
Fixpoint ema_scan {A} `{Scalar A} (beta : A) (x : nat → A) (t : nat) : A :=
  match t with
  | 0 => x 0
  | S t' => fadd (fmul beta (ema_scan beta x t'))
                 (fmul (fsub (of_Q 1) beta) (x t))
  end.


(** Binary32 values: the zeros, [+0], and the positive values that are not
    NaN (a positive finite number or [+∞]). *)
Definition is_zero (x : spec_float) : bool :=
  match x with S754_zero _ => true | _ => false end.

Definition pzero : spec_float := S754_zero false.

Definition is_pos (x : spec_float) : bool :=
  match x with
  | S754_finite false _ _ | S754_infinity false => true
  | _ => false
  end.

(** [b] is [a], or [a] is [-0.0] and [b] is [+0.0]: the same number, and
    the same bits unless a zero lost its sign. *)
Definition keeps_value (a b : spec_float) : Prop :=
  b = a ∨ (a = S754_zero true ∧ b = S754_zero false).


(** The objects a store held before a call are the same after it. *)
Definition preserves {A} (h h' : gmap loc (obj A)) : Prop :=
  ∀ l, l ∈ dom h → h' !! l = h !! l.

(** ** Sample inputs *)

Module Sample.
(** A [3, 5, 4] tensor of ones and a [10, 3, 1280] tensor of zeros. *)
Definition x_ones : tensor spec_float := Tensor [3; 5; 4] (replicate 60 (of_Q 1)).
Definition x_bad : tensor spec_float :=
  Tensor [10; 3; 1280] (replicate (10 * 3 * 1280) (of_Q 0)).

(** Two frames of one channel: 1 everywhere, then 2 everywhere. *)
Definition x_steps : tensor spec_float :=
  Tensor [2; 5; 1] (replicate 5 (of_Q 1) ++ replicate 5 (of_Q 2)).

(** One frame of one channel, 1 everywhere. *)
Definition x_unit {A} `{Scalar A} : tensor A :=
  Tensor [1; 5; 1] (replicate 5 (of_Q 1)).

(** One frame of one channel, [2^127] everywhere: four times that is beyond
    the largest binary32 number. *)
Definition x_big : tensor spec_float :=
  Tensor [1; 5; 1] (replicate 5 (S754_finite false 8388608 104)).

(** The presets with the blend factor at 0, and with the global gain at 2
    besides. *)
Definition cfg_alpha0 : config := {|
  PRESET_GAINS := PRESET_GAINS preset;
  PRESET_EMA_BETA := PRESET_EMA_BETA preset;
  PRESET_PRESERVE_RMS := PRESET_PRESERVE_RMS preset;
  PRESET_ALPHA_MIX := 0%Q;
  PRESET_GLOBAL_GAIN := 1%Q;
  PRESET_CLAMP_STD := 0%Q
|}.

Definition cfg_gain2 : config := {|
  PRESET_GAINS := PRESET_GAINS preset;
  PRESET_EMA_BETA := PRESET_EMA_BETA preset;
  PRESET_PRESERVE_RMS := PRESET_PRESERVE_RMS preset;
  PRESET_ALPHA_MIX := 0%Q;
  PRESET_GLOBAL_GAIN := 2%Q;
  PRESET_CLAMP_STD := 0%Q
|}.

(** The presets with RMS preservation switched on. *)
Definition cfg_rms : config := {|
  PRESET_GAINS := PRESET_GAINS preset;
  PRESET_EMA_BETA := PRESET_EMA_BETA preset;
  PRESET_PRESERVE_RMS := true;
  PRESET_ALPHA_MIX := PRESET_ALPHA_MIX preset;
  PRESET_GLOBAL_GAIN := PRESET_GLOBAL_GAIN preset;
  PRESET_CLAMP_STD := PRESET_CLAMP_STD preset
|}.


(** The audio buffer [[0.0, 0.0, 0.0]] and the tensor it is converted to. *)
Definition audio_silence : pyobj spec_float :=
  PyList [PyNum pzero; PyNum pzero; PyNum pzero].

Definition silence : tensor spec_float := Tensor [3] [pzero; pzero; pzero].

(** Stores whose object 1 is the caller's mapping. *)
Definition store_of (x : tensor spec_float) : gmap loc (obj spec_float) :=
  {[ 1%positive := ODict {[ key := 2%positive; "image_embeds" := 3%positive ]};
     2%positive := OTensor x;
     3%positive := OOpaque 0 ]}.

Definition store_no_key : gmap loc (obj spec_float) :=
  {[ 1%positive := ODict {[ "image_embeds" := 3%positive ]};
     3%positive := OOpaque 0 ]}.
End Sample.

(** ** Further vocabulary and inputs *)

(** A binary32 value that is not below zero: a zero of either sign, a
    positive finite number, [+∞], or NaN. *)
Definition not_negative (x : spec_float) : bool :=
  match x with
  | S754_finite true _ _ | S754_infinity true => false
  | _ => true
  end.

Module Fixture.
(** A tensor with no time step. *)
Definition x_empty : tensor spec_float := Tensor [0; 5; 1280] [].

(** Every optional stage switched on. *)
Definition cfg_all : config := {|
  PRESET_GAINS := PRESET_GAINS preset;
  PRESET_EMA_BETA := PRESET_EMA_BETA preset;
  PRESET_PRESERVE_RMS := true;
  PRESET_ALPHA_MIX := (1 # 2)%Q;
  PRESET_GLOBAL_GAIN := (3 # 2)%Q;
  PRESET_CLAMP_STD := 2%Q
|}.

(** A (sample rate, data) pair around the silent buffer. *)
Definition audio_pair (rate : Q) : pyobj spec_float :=
  PyTuple [PyNum (of_Q rate); PyTensor Sample.silence].

(** Two frames of one channel: 1 everywhere, then [-0.0] everywhere. *)
Definition x_signed : tensor spec_float :=
  Tensor [2; 5; 1] (replicate 5 (of_Q 1) ++ replicate 5 (S754_zero true)).

(** One frame of one channel, [2^83] everywhere: the square is beyond the
    largest binary32 number. *)
Definition x_huge : tensor spec_float :=
  Tensor [1; 5; 1] (replicate 5 (S754_finite false 8388608 60)).

(** The Python list [[0.01]]: its element is a binary64 [float]. *)
Definition audio_quiet : pyobj spec_float :=
  PyList [PyNum (F64.of_Q (1 # 100))].

End Fixture.

(** * Properties *)

(** ** The store *)

Section StoreFacts.
Context {A : Type} `{Scalar A}.
Implicit Types (h : gmap loc (obj A)) (d : gmap string loc) (x : tensor A).

Lemma fresh_lookup h : h !! fresh (dom h) = None.
Proof. apply not_elem_of_dom, is_fresh. Qed.

Lemma lookup_not_fresh h l o : h !! l = Some o → l ≠ fresh (dom h).
Proof. intros Hl ->. rewrite fresh_lookup in Hl. discriminate. Qed.

Lemma preserves_refl h : preserves h h.
Proof. by intros l _. Qed.

Lemma preserves_alloc h o : preserves h (<[fresh (dom h) := o]> h).
Proof.
  intros l Hl. apply lookup_insert_ne. intros <-.
  by apply (is_fresh (dom h)).
Qed.

Lemma preserves_trans h1 h2 h3 :
  preserves h1 h2 → preserves h2 h3 → preserves h1 h3.
Proof.
  intros H12 H23 l Hl. rewrite <- (H12 l Hl). apply H23.
  apply elem_of_dom. rewrite (H12 l Hl). by apply elem_of_dom.
Qed.

(** The call with [enabled = True] on a mapping without the key. *)
Lemma apply_enabled_missing cfg l h d :
  h !! l = Some (ODict d) → d !! key = None →
  apply cfg l true h =
    (Raise (ValueError MissingKey), <[fresh (dom h) := ODict d]> h).
Proof.
  intros Hl Hk. unfold apply, mbind, M_bind, deref, alloc, raise. cbn.
  by rewrite Hl, Hk.
Qed.

(** The call with [enabled = True] on a mapping that holds a tensor under
    the key: the copy of the mapping is allocated first, the edited tensor
    next, and the copy is then updated in place. *)
Lemma apply_enabled_tensor cfg l h d xl x :
  h !! l = Some (ODict d) → d !! key = Some xl → h !! xl = Some (OTensor x) →
  apply cfg l true h =
    let embeds := fresh (dom h) in
    let h1 := <[embeds := ODict d]> h in
    if negb (ndim x =? 3) || negb (shape x !!! 1 =? 5)
    then (Raise (ValueError (BadShape (shape x))), h1)
    else match edit cfg x with
         | Raise e => (Raise e, h1)
         | Ok x_mixed =>
             let xm := fresh (dom h1) in
             (Ok embeds,
              <[embeds := ODict (<[key := xm]> d)]> (<[xm := OTensor x_mixed]> h1))
         end.
Proof.
  intros Hl Hk Hx. unfold apply, mbind, M_bind, deref, alloc, raise, lift, store, mret, M_ret.
  cbn. rewrite Hl, Hk.
  rewrite lookup_insert_ne by (symmetry; eapply lookup_not_fresh; eauto).
  rewrite Hx.
  destruct (negb (ndim x =? 3) || negb (shape x !!! 1 =? 5)); [done|].
  by destruct (edit cfg x).
Qed.
End StoreFacts.

(** ** Shapes through the chain *)

Section ShapeFacts.
Context {A : Type} `{Scalar A}.
Implicit Types (l d row : list A) (p q : list (list A)) (v w : list (list (list A))).

Lemma length_chunks n k l : length (chunks n k l) = n.
Proof. revert l. induction n as [|n IH]; intros l; simpl; [done|]. by rewrite IH. Qed.

Lemma chunks_rows n k l :
  length l = n * k → Forall (λ row, length row = k) (chunks n k l).
Proof.
  revert l. induction n as [|n IH]; intros l Hl; simpl; constructor.
  - rewrite length_take. lia.
  - apply IH. rewrite length_drop. lia.
Qed.

Lemma join_chunks n k l : length l = n * k → mjoin (chunks n k l) = l.
Proof.
  revert l. induction n as [|n IH]; intros l Hl; simpl.
  - destruct l; [done|discriminate].
  - rewrite IH by (rewrite length_drop; lia). apply take_drop.
Qed.

Lemma view3_shaped T B C d :
  length d = T * (B * C) → shaped3 T B C (view3 T B C d).
Proof.
  intros Hd. split.
  - unfold view3. by rewrite length_fmap, length_chunks.
  - unfold view3. apply Forall_fmap.
    eapply Forall_impl; [apply chunks_rows, Hd|].
    intros p Hp. simpl. split; [apply length_chunks|by apply chunks_rows].
Qed.

Lemma flat3_view3 T B C d :
  length d = T * (B * C) → flat3 (view3 T B C d) = d.
Proof.
  intros Hd. unfold flat3, view3.
  rewrite <- list_fmap_compose.
  rewrite <- (join_chunks T (B * C) d Hd) at 2. f_equal.
  rewrite <- (list_fmap_id (chunks T (B * C) d)) at 2.
  apply Forall_fmap_ext_1.
  eapply Forall_impl; [apply chunks_rows, Hd|].
  intros p Hp. simpl. by apply join_chunks.
Qed.

Lemma length_join_rows C p :
  Forall (λ row, length row = C) p → length (mjoin p) = length p * C.
Proof.
  induction 1 as [|row p Hrow _ IH]; simpl; [done|].
  rewrite length_app, IH, Hrow. lia.
Qed.

Lemma length_flat3 T B C v : shaped3 T B C v → length (flat3 v) = T * (B * C).
Proof.
  intros [<- Hv]. unfold flat3.
  rewrite (length_join_rows (B * C)); [by rewrite length_fmap|].
  apply Forall_fmap. eapply Forall_impl; [exact Hv|].
  intros p [<- Hp]. simpl. by apply length_join_rows.
Qed.

Lemma Forall_zip_with_2 {X Y Z} (P : X → Prop) (Q : Y → Prop) (R : Z → Prop)
    (g : X → Y → Z) (l : list X) (k : list Y) :
  (∀ a b, P a → Q b → R (g a b)) →
  Forall P l → Forall Q k → Forall R (zip_with g l k).
Proof.
  intros Hg Hl. revert k.
  induction Hl as [|a l Ha _ IH]; intros k Hk; [constructor|].
  destruct Hk as [|b k Hb Hk]; simpl; constructor; auto.
Qed.

Lemma length_zip_with_same {X Y Z} (g : X → Y → Z) (l : list X) (k : list Y) n :
  length l = n → length k = n → length (zip_with g l k) = n.
Proof. intros Hl Hk. rewrite length_zip_with. lia. Qed.

Lemma shaped2_fmap B C (f : A → A) p :
  shaped2 B C p → shaped2 B C ((λ row : list A, f <$> row) <$> p).
Proof.
  intros [Hp Hrows]. split; [by rewrite length_fmap|].
  apply Forall_fmap. eapply Forall_impl; [exact Hrows|].
  intros row Hrow. simpl. by rewrite length_fmap.
Qed.

Lemma shaped2_zip B C (f : A → A → A) p q :
  shaped2 B C p → shaped2 B C q → shaped2 B C (zip_with (zip_with f) p q).
Proof.
  intros [Hp Hrp] [Hq Hrq]. split; [by apply length_zip_with_same|].
  eapply Forall_zip_with_2; [|exact Hrp|exact Hrq].
  intros a b Ha Hb. by apply length_zip_with_same.
Qed.

Lemma shaped3_map3 T B C (f : A → A) v :
  shaped3 T B C v → shaped3 T B C (map3 f v).
Proof.
  intros [Hv Hf]. split; [unfold map3; by rewrite length_fmap|].
  unfold map3. apply Forall_fmap. eapply Forall_impl; [exact Hf|].
  intros p Hp. by apply shaped2_fmap.
Qed.

Lemma shaped3_zip3 T B C (f : A → A → A) v w :
  shaped3 T B C v → shaped3 T B C w → shaped3 T B C (zip3 f v w).
Proof.
  intros [Hv Hfv] [Hw Hfw]. split; [by apply length_zip_with_same|].
  eapply Forall_zip_with_2; [|exact Hfv|exact Hfw].
  intros p q. apply shaped2_zip.
Qed.

Lemma ema_loop_shaped B C beta one_m s rest :
  shaped2 B C s → Forall (shaped2 B C) rest →
  shaped3 (length rest) B C (ema_loop beta one_m s rest).
Proof.
  intros Hs Hrest. revert s Hs.
  induction Hrest as [|xt rest Hxt _ IH]; intros s Hs; simpl; [by split|].
  assert (Hs' : shaped2 B C
            (zip_with (zip_with fadd) (scale beta s) (scale one_m xt))).
  { apply shaped2_zip; by apply shaped2_fmap. }
  destruct (IH _ Hs') as [Hlen Hall].
  split; [simpl; by rewrite Hlen|by constructor].
Qed.

Lemma smooth_shaped ema_beta T' T B C x :
  shaped3 T B C x → shaped3 T B C (smooth ema_beta T' x).
Proof.
  intros Hx. unfold smooth.
  destruct ((1 <? T') && Qgtb ema_beta 0); [|done].
  destruct x as [|x0 rest]; [done|].
  destruct Hx as [<- Hall]. apply Forall_cons in Hall as [H0 Hrest].
  destruct (ema_loop_shaped B C (of_Q ema_beta)
              (fsub (of_Q 1) (of_Q ema_beta)) x0 rest H0 Hrest) as [Hlen Hall].
  split; [simpl; by rewrite Hlen|by constructor].
Qed.

Lemma mul_gains_shaped T B C x (gains : list A) :
  length gains = B → shaped3 T B C x → shaped3 T B C (mul_gains x gains).
Proof.
  intros Hg [Hx Hall]. split; [unfold mul_gains; by rewrite length_fmap|].
  unfold mul_gains. apply Forall_fmap. eapply Forall_impl; [exact Hall|].
  intros p [Hp Hrows]. simpl. split; [by apply length_zip_with_same|].
  eapply (Forall_zip_with_2 _ (λ _, True)); [|exact Hrows|by apply Forall_true].
  intros row g Hrow _. by rewrite length_fmap.
Qed.

Lemma _rms_shaped T B C x eps : shaped3 T B C x → shaped3 T B 1 (_rms x eps).
Proof.
  intros [Hx Hall]. split; [unfold _rms; by rewrite length_fmap|].
  unfold _rms. apply Forall_fmap. eapply Forall_impl; [exact Hall|].
  intros p [Hp Hrows]. simpl. split; [by rewrite length_fmap|].
  apply Forall_fmap. by apply Forall_true.
Qed.

Lemma length_bcast_last (f : A → A → A) row r :
  length r = 1 → length (bcast_last f row r) = length row.
Proof.
  destruct r as [|r0 [|? ?]]; try discriminate. intros _. simpl.
  by rewrite length_fmap.
Qed.

Lemma preserve_rms_shaped T B C x_orig x_edit :
  shaped3 T B C x_orig → shaped3 T B C x_edit →
  shaped3 T B C (preserve_rms x_orig x_edit).
Proof.
  intros Ho He. unfold preserve_rms.
  pose proof (shaped3_zip3 T B 1 fdiv _ _
                (_rms_shaped _ _ _ _ eps_default Ho)
                (_rms_shaped _ _ _ _ eps_default He)) as [Hr Hrall].
  destruct He as [He Heall].
  split; [by apply length_zip_with_same|].
  eapply Forall_zip_with_2; [|exact Heall|exact Hrall].
  intros p q [Hp Hprows] [Hq Hqrows].
  split; [by apply length_zip_with_same|].
  eapply Forall_zip_with_2; [|exact Hprows|exact Hqrows].
  intros row r Hrow Hr1. simpl. by rewrite length_bcast_last.
Qed.

Lemma blend_shaped T B C alpha x_orig x_edit :
  shaped3 T B C x_orig → shaped3 T B C x_edit →
  shaped3 T B C (blend alpha x_orig x_edit).
Proof. intros Ho He. apply shaped3_zip3; by apply shaped3_map3. Qed.

Lemma global_gain_shaped T B C g x :
  shaped3 T B C x → shaped3 T B C (global_gain g x).
Proof.
  intros Hx. unfold global_gain. destruct (Qneb g 1); [|done].
  by apply shaped3_map3.
Qed.

Lemma clamp_std_shaped T B C k x :
  shaped3 T B C x → shaped3 T B C (clamp_std k x).
Proof.
  intros Hx. unfold clamp_std. destruct (Qgtb k 0); [|done].
  by apply shaped3_map3.
Qed.
End ShapeFacts.

(** ** The smoothing stage *)

Section SmoothFacts.
Context {A : Type} `{Scalar A}.
Implicit Types (row : list A) (p q s : list (list A)) (v x : list (list (list A))).

(** One turn of the loop body on a frame. *)
Lemma ema_loop_nth beta one_m s rest k :
  k < length rest →
  nth k (ema_loop beta one_m s rest) [] =
    zip_with (zip_with fadd)
      (scale beta (nth k (s :: ema_loop beta one_m s rest) []))
      (scale one_m (nth k rest [])).
Proof.
  revert s k. induction rest as [|xt rest IH]; intros s k Hk; simpl in Hk; [lia|].
  destruct k as [|k]; [reflexivity|].
  cbn [ema_loop nth]. rewrite IH by lia. reflexivity.
Qed.

Lemma shaped2_nth B C v t : Forall (shaped2 B C) v → t < length v → shaped2 B C (nth t v []).
Proof.
  intros Hv Ht. rewrite Forall_forall in Hv. apply Hv.
  apply list_elem_of_In, nth_In, Ht.
Qed.

Lemma elem2_step B C (d : A) beta one_m s xt b c :
  shaped2 B C s → shaped2 B C xt → b < B → c < C →
  nth c (nth b (zip_with (zip_with fadd) (scale beta s) (scale one_m xt)) []) d =
    fadd (fmul beta (nth c (nth b s []) d)) (fmul one_m (nth c (nth b xt []) d)).
Proof.
  intros [Hs Hsr] [Hx Hxr] Hb Hc.
  destruct (lookup_lt_is_Some_2 s b) as [rs Hrs]; [lia|].
  destruct (lookup_lt_is_Some_2 xt b) as [rx Hrx]; [lia|].
  pose proof (Forall_lookup_1 _ _ _ _ Hsr Hrs) as Hlrs.
  pose proof (Forall_lookup_1 _ _ _ _ Hxr Hrx) as Hlrx. simpl in *.
  destruct (lookup_lt_is_Some_2 rs c) as [vs Hvs]; [lia|].
  destruct (lookup_lt_is_Some_2 rx c) as [vx Hvx]; [lia|].
  rewrite !nth_lookup. unfold scale.
  rewrite lookup_zip_with, !list_lookup_fmap, Hrs, Hrx. simpl.
  rewrite lookup_zip_with, !list_lookup_fmap, Hvs, Hvx. reflexivity.
Qed.

Lemma Qgtb_true (a b : Q) : (b < a)%Q → Qgtb a b = true.
Proof.
  intros Hlt. unfold Qgtb. apply negb_true_iff.
  destruct (Qle_bool a b) eqn:Hle; [|done].
  apply Qle_bool_iff in Hle. by apply Qlt_not_le in Hlt.
Qed.

Lemma Qgtb_false (a b : Q) : (a <= b)%Q → Qgtb a b = false.
Proof.
  intros Hle. unfold Qgtb. apply negb_false_iff. by apply Qle_bool_iff.
Qed.

(** The smoothed sequence is the scan, element by element. *)
Lemma smooth_scan_shaped ema_beta T B C x (d : A) :
  shaped3 T B C x → 1 < T → (0 < ema_beta)%Q →
  ∀ t b c, t < T → b < B → c < C →
    elem d (smooth ema_beta T x) t b c =
      ema_scan (of_Q ema_beta) (λ t', elem d x t' b c) t.
Proof.
  intros Hx HT Hbeta t b c Ht Hb Hc.
  pose proof (smooth_shaped ema_beta T T B C x Hx) as [Hlen Hout].
  revert Hlen Hout. unfold smooth.
  rewrite (proj2 (Nat.ltb_lt 1 T) HT), (Qgtb_true _ _ Hbeta). cbn [andb].
  destruct Hx as [HxT Hxall].
  destruct x as [|x0 rest]; [simpl in HxT; lia|].
  set (beta := of_Q ema_beta). set (one_m := fsub (of_Q 1) beta).
  intros Hlen Hout. simpl in HxT, Hlen.
  induction t as [|t IH]; [reflexivity|].
  unfold elem in *. cbn [nth ema_scan].
  rewrite ema_loop_nth by lia.
  rewrite (elem2_step B C).
  - rewrite IH by lia. reflexivity.
  - apply shaped2_nth; [done|simpl; lia].
  - apply shaped2_nth; [by apply Forall_cons in Hxall as [_ ?]|lia].
  - done.
  - done.
Qed.

Lemma smooth_skip ema_beta T x :
  T = 1 ∨ (ema_beta == 0)%Q → smooth ema_beta T x = x.
Proof.
  intros [->|Hz]; unfold smooth; [reflexivity|].
  rewrite (Qgtb_false ema_beta 0), andb_false_r; [done|].
  rewrite Hz. apply Qle_refl.
Qed.
End SmoothFacts.

Section EditFacts.
Context {A : Type} `{Scalar A}.
Implicit Types (x : tensor A).

Lemma valid_shape_test x :
  negb (ndim x =? 3) || negb (shape x !!! 1 =? 5) = false ↔ valid_shape x.
Proof.
  unfold valid_shape. rewrite orb_false_iff, !negb_false_iff, !Nat.eqb_eq.
  tauto.
Qed.

Lemma valid_shape_numel x :
  valid_shape x → numel (shape x) = shape x !!! 0 * (5 * shape x !!! 2).
Proof.
  unfold valid_shape, ndim. intros [Hn H1].
  destruct (shape x) as [|T [|B [|C [|? ?]]]]; try discriminate.
  simpl in *. subst. lia.
Qed.

Lemma view3_data_shaped x :
  valid_shape x → tensor_wf x →
  shaped3 (shape x !!! 0) 5 (shape x !!! 2)
          (view3 (shape x !!! 0) 5 (shape x !!! 2) (data x)).
Proof.
  intros Hv Hwf. apply view3_shaped. unfold tensor_wf in Hwf.
  by rewrite Hwf, (valid_shape_numel x Hv).
Qed.

Lemma edited_shaped cfg T' T B C (x_orig : list (list (list A))) :
  length (PRESET_GAINS cfg) = B →
  shaped3 T B C x_orig → shaped3 T B C (edited cfg T' x_orig).
Proof.
  intros Hg Hx. unfold edited.
  assert (He : shaped3 T B C
                 (mul_gains (smooth (PRESET_EMA_BETA cfg) T' x_orig)
                            (of_Q <$> PRESET_GAINS cfg))).
  { apply mul_gains_shaped; [by rewrite length_fmap|by apply smooth_shaped]. }
  destruct (PRESET_PRESERVE_RMS cfg); [by apply preserve_rms_shaped|done].
Qed.

(** With five gains the chain runs to its end, and the result has the shape
    of [x] and as many elements as that shape says. *)
Lemma edit_ok cfg x :
  length (PRESET_GAINS cfg) = 5 →
  ∃ x_mixed, edit cfg x = Ok x_mixed ∧ shape x_mixed = shape x ∧
    (valid_shape x → tensor_wf x → tensor_wf x_mixed).
Proof.
  intros Hg. unfold edit. rewrite Hg. simpl.
  eexists. split; [reflexivity|]. split; [reflexivity|].
  intros Hv Hwf. unfold tensor_wf. simpl.
  pose proof (view3_data_shaped x Hv Hwf) as Hx.
  set (x_orig := view3 _ _ _ _) in *.
  rewrite (valid_shape_numel x Hv).
  apply length_flat3.
  apply clamp_std_shaped, global_gain_shaped, blend_shaped; [done|].
  by apply edited_shaped.
Qed.

(** The chain can only fail where the gains are viewed as [1, 5, 1]. *)
Lemma edit_raise cfg x e : edit cfg x = Raise e → e = RuntimeError.
Proof.
  unfold edit. destruct (negb (length (PRESET_GAINS cfg) =? 5)); [|done].
  congruence.
Qed.
End EditFacts.

(** ** The editor and the store *)

Section ApplyFacts.
Context {A : Type} `{Scalar A}.
Implicit Types (h : gmap loc (obj A)) (d : gmap string loc) (x : tensor A).

(** A successful call with [enabled = True] went through every step. *)
Lemma apply_enabled_inv cfg l h l' h' :
  apply cfg l true h = (Ok l', h') →
  ∃ d xl x x_mixed,
    h !! l = Some (ODict d) ∧ d !! key = Some xl ∧
    h !! xl = Some (OTensor x) ∧ valid_shape x ∧ edit cfg x = Ok x_mixed ∧
    l' = fresh (dom h) ∧
    h' = <[l' := ODict (<[key := fresh (dom (<[l' := ODict d]> h)) ]> d)]>
           (<[fresh (dom (<[l' := ODict d]> h)) := OTensor x_mixed]>
              (<[l' := ODict d]> h)).
Proof.
  intros Happ.
  destruct (h !! l) as [[d| |]|] eqn:Hl;
    try (unfold apply, mbind, M_bind, deref in Happ; cbn in Happ; rewrite Hl in Happ;
         discriminate).
  destruct (d !! key) as [xl|] eqn:Hk;
    [|rewrite (apply_enabled_missing cfg l h d Hl Hk) in Happ; discriminate].
  destruct (h !! xl) as [xo|] eqn:Hx.
  - destruct xo as [|x|];
      try (unfold apply, mbind, M_bind, deref, alloc in Happ; cbn in Happ;
           rewrite Hl, Hk in Happ;
           rewrite lookup_insert_ne in Happ
             by (symmetry; eapply lookup_not_fresh; eauto);
           rewrite Hx in Happ; discriminate).
    rewrite (apply_enabled_tensor cfg l h d xl x Hl Hk Hx) in Happ. cbn in Happ.
    destruct (negb (ndim x =? 3) || negb (shape x !!! 1 =? 5)) eqn:Hv;
      [discriminate|].
    apply valid_shape_test in Hv.
    destruct (edit cfg x) as [x_mixed|] eqn:He; [|discriminate].
    injection Happ as <- <-. by exists d, xl, x, x_mixed.
  - unfold apply, mbind, M_bind, deref, alloc in Happ. cbn in Happ.
    rewrite Hl, Hk in Happ.
    destruct (decide (xl = fresh (dom h))) as [->|Hne].
    + rewrite lookup_insert_eq in Happ. discriminate.
    + rewrite lookup_insert_ne, Hx in Happ by done. discriminate.
Qed.

(** What the store looks like after a successful call. *)
Lemma apply_enabled_store h d e xm (x_mixed : tensor A) :
  e = fresh (dom h) → xm = fresh (dom (<[e := ODict d]> h)) →
  (let h' := <[e := ODict (<[key := xm]> d)]>
               (<[xm := OTensor x_mixed]> (<[e := ODict d]> h)) in
   (e ∉ dom h) ∧ (xm ∉ dom h) ∧ xm ≠ e ∧ preserves h h' ∧
   h' !! e = Some (ODict (<[key := xm]> d)) ∧
   h' !! xm = Some (OTensor x_mixed)).
Proof.
  intros He Hxm h'.
  assert (Hfe : e ∉ dom h) by (subst e; apply is_fresh).
  assert (Hfx : xm ∉ dom (<[e := ODict d]> h)) by (subst xm; apply is_fresh).
  rewrite dom_insert_L in Hfx.
  assert (xm ≠ e) by set_solver. assert (xm ∉ dom h) by set_solver.
  repeat split; try done.
  - intros a Ha. unfold h'.
    rewrite !lookup_insert_ne; [done|set_solver..].
  - unfold h'. by rewrite lookup_insert_eq.
  - unfold h'. by rewrite lookup_insert_ne, lookup_insert_eq.
Qed.
End ApplyFacts.

(** ** The claims about [apply] and the store *)

(** C1: with [enabled = False], [apply] returns the very mapping it was given
    and leaves the store as it was: the mapping has the entries it had, and
    every tensor it carries is the tensor it was. *)
Theorem apply_disabled_identity {A} `{Scalar A} (cfg : config)
    (image_embeds : loc) (h : gmap loc (obj A)) :
  apply cfg image_embeds false h = (Ok image_embeds, h) ∧
  ∀ d k xl x,
    h !! image_embeds = Some (ODict d) → d !! k = Some xl →
    h !! xl = Some (OTensor x) →
    (apply cfg image_embeds false h).2 !! image_embeds = Some (ODict d) ∧
    (apply cfg image_embeds false h).2 !! xl = Some (OTensor x).
Proof.
  split; [reflexivity|]. intros d k xl x Hd Hk Hx. cbn. by split.
Qed.

Lemma apply_disabled_identity_witness :
  let h := Sample.store_of Sample.x_ones in
  apply preset 1%positive false h = (Ok 1%positive, h) ∧
  (apply preset 1%positive false h).2 !! 2%positive
    = Some (OTensor Sample.x_ones).
Proof.
  intros h.
  destruct (apply_disabled_identity preset 1%positive h) as [Hret Hkeep].
  split; [exact Hret|].
  apply (Hkeep {[ key := 2%positive; "image_embeds" := 3%positive ]}
           key 2%positive Sample.x_ones); reflexivity.
Defined.

(** C10: with [enabled = False] nothing is validated: a mapping without the
    key, or with a tensor of the wrong rank or band count under it, is
    returned as it is, where the same call with [enabled = True] raises a
    [ValueError]. *)
Theorem apply_disabled_no_validation {A} `{Scalar A} (cfg : config) (l : loc)
    (h : gmap loc (obj A)) (d : gmap string loc) :
  h !! l = Some (ODict d) →
  (d !! key = None ∨
   ∃ xl x, d !! key = Some xl ∧ h !! xl = Some (OTensor x) ∧
           (ndim x ≠ 3 ∨ shape x !!! 1 ≠ 5)) →
  apply cfg l false h = (Ok l, h) ∧
  ∃ e, (apply cfg l true h).1 = Raise (ValueError e).
Proof.
  intros Hl Hbad. split; [reflexivity|].
  destruct Hbad as [Hk|(xl & x & Hk & Hx & Hshape)].
  - exists MissingKey. by rewrite (apply_enabled_missing cfg l h d Hl Hk).
  - exists (BadShape (shape x)).
    rewrite (apply_enabled_tensor cfg l h d xl x Hl Hk Hx). cbn.
    destruct (negb (ndim x =? 3) || negb (shape x !!! 1 =? 5)) eqn:Hv; [done|].
    apply valid_shape_test in Hv as [? ?]. tauto.
Qed.

Lemma apply_disabled_no_validation_witness :
  apply preset 1%positive false Sample.store_no_key
    = (Ok 1%positive, Sample.store_no_key) ∧
  ∃ e, (apply preset 1%positive true Sample.store_no_key).1
         = Raise (ValueError e).
Proof.
  apply (apply_disabled_no_validation preset 1%positive Sample.store_no_key
           {[ "image_embeds" := 3%positive ]}).
  - reflexivity.
  - left. reflexivity.
Defined.

(** C9: with [enabled = True] and no ["humo_audio_emb"] in the mapping, the
    call raises the [ValueError] for the missing key: no mapping is
    returned, no tensor is created, and what the store held is as it was. *)
Theorem apply_missing_key {A} `{Scalar A} (cfg : config) (l : loc)
    (h : gmap loc (obj A)) (d : gmap string loc) :
  h !! l = Some (ODict d) → d !! key = None →
  ∃ h', apply cfg l true h = (Raise (ValueError MissingKey), h') ∧
        preserves h h' ∧
        ∀ a x, h' !! a = Some (OTensor x) → h !! a = Some (OTensor x).
Proof.
  intros Hl Hk. eexists. split; [by apply apply_enabled_missing|].
  split; [apply preserves_alloc|].
  intros a x Ha. destruct (decide (a = fresh (dom h))) as [->|Hne].
  - rewrite lookup_insert_eq in Ha. discriminate.
  - by rewrite lookup_insert_ne in Ha.
Qed.

Lemma apply_missing_key_witness :
  ∃ h', apply preset 1%positive true Sample.store_no_key
          = (Raise (ValueError MissingKey), h') ∧
        preserves Sample.store_no_key h' ∧
        ∀ a x, h' !! a = Some (OTensor x) →
               Sample.store_no_key !! a = Some (OTensor x).
Proof.
  apply (apply_missing_key preset 1%positive Sample.store_no_key
           {[ "image_embeds" := 3%positive ]}); reflexivity.
Defined.

(** C4: with [enabled = True] and a tensor under the key, the [ValueError]
    for the shape is raised exactly when the tensor is not 3-dimensional or
    its second axis is not 5 long; the call then ends without an edited
    tensor in the store.  Otherwise (the class listing five gains) the call
    returns a mapping whose tensor has the shape of the input, with as
    many elements as that shape says. *)
Theorem apply_shape_error {A} `{Scalar A} (cfg : config) (l : loc)
    (h : gmap loc (obj A)) (d : gmap string loc) (xl : loc) (x : tensor A) :
  h !! l = Some (ODict d) → d !! key = Some xl → h !! xl = Some (OTensor x) →
  ((∃ got, (apply cfg l true h).1 = Raise (ValueError (BadShape got))) ↔
   (ndim x ≠ 3 ∨ shape x !!! 1 ≠ 5)) ∧
  (ndim x ≠ 3 ∨ shape x !!! 1 ≠ 5 →
   (apply cfg l true h).1 = Raise (ValueError (BadShape (shape x))) ∧
   ∀ a y, (apply cfg l true h).2 !! a = Some (OTensor y) →
          h !! a = Some (OTensor y)) ∧
  (ndim x = 3 ∧ shape x !!! 1 = 5 → length (PRESET_GAINS cfg) = 5 →
   ∃ l' h' d' xm x_mixed,
     apply cfg l true h = (Ok l', h') ∧
     h' !! l' = Some (ODict d') ∧ d' !! key = Some xm ∧
     h' !! xm = Some (OTensor x_mixed) ∧
     shape x_mixed = shape x ∧ (tensor_wf x → tensor_wf x_mixed)).
Proof.
  intros Hl Hk Hx.
  rewrite (apply_enabled_tensor cfg l h d xl x Hl Hk Hx). cbn zeta.
  destruct (negb (ndim x =? 3) || negb (shape x !!! 1 =? 5)) eqn:Hv.
  - assert (Hbad : ndim x ≠ 3 ∨ shape x !!! 1 ≠ 5).
    { apply orb_true_iff in Hv as [Hv|Hv];
        apply negb_true_iff, Nat.eqb_neq in Hv; tauto. }
    split; [split; [done|by eexists]|]. split.
    + intros _. split; [done|]. cbn. intros a y Ha.
      destruct (decide (a = fresh (dom h))) as [->|Hne].
      * rewrite lookup_insert_eq in Ha. discriminate.
      * by rewrite lookup_insert_ne in Ha.
    + intros [? ?]. tauto.
  - apply valid_shape_test in Hv. pose proof Hv as [Hn H5].
    split; [|split].
    + split; [|tauto]. intros [got Hgot].
      destruct (edit cfg x) as [?|e] eqn:He; cbn in Hgot; [discriminate|].
      apply edit_raise in He. congruence.
    + tauto.
    + intros _ Hg.
      destruct (edit_ok cfg x Hg) as (x_mixed & -> & Hshape & Hwf).
      destruct (apply_enabled_store h d _ _ x_mixed eq_refl eq_refl)
        as (_ & _ & _ & _ & He & Hxm).
      eexists _, _, _, _, x_mixed. split; [reflexivity|].
      split; [exact He|]. split; [apply lookup_insert_eq|].
      split; [exact Hxm|]. split; [done|]. intros Hw. by apply Hwf.
Qed.

Lemma apply_shape_error_witness :
  shape Sample.x_bad = [10; 3; 1280] ∧
  (apply preset 1%positive true (Sample.store_of Sample.x_bad)).1
    = Raise (ValueError (BadShape [10; 3; 1280])).
Proof.
  split; [reflexivity|].
  apply (apply_shape_error preset 1%positive (Sample.store_of Sample.x_bad)
           {[ key := 2%positive; "image_embeds" := 3%positive ]}
           2%positive Sample.x_bad); [reflexivity..|].
  right. cbn. lia.
Defined.

(** C8: after a successful call with [enabled = True], the returned mapping
    is a new object equal to the caller's mapping except under
    ["humo_audio_emb"], where it refers to a new tensor, the edit of the
    caller's one; the caller's mapping, its tensor and every other object of
    the store are as they were. *)
Theorem apply_enabled_frame {A} `{Scalar A} (cfg : config) (l l' : loc)
    (h h' : gmap loc (obj A)) :
  apply cfg l true h = (Ok l', h') →
  ∃ d d' xl xm x x_mixed,
    h !! l = Some (ODict d) ∧ d !! key = Some xl ∧
    h !! xl = Some (OTensor x) ∧
    h' !! l' = Some (ODict d') ∧
    d' = <[key := xm]> d ∧ (∀ k, k ≠ key → d' !! k = d !! k) ∧
    h' !! xm = Some (OTensor x_mixed) ∧ edit cfg x = Ok x_mixed ∧
    (l' ∉ dom h) ∧ (xm ∉ dom h) ∧
    h' !! l = Some (ODict d) ∧ h' !! xl = Some (OTensor x) ∧
    preserves h h'.
Proof.
  intros Happ.
  destruct (apply_enabled_inv cfg l h l' h' Happ)
    as (d & xl & x & x_mixed & Hl & Hk & Hx & _ & He & Hl' & Hh').
  destruct (apply_enabled_store h d l' _ x_mixed Hl' eq_refl)
    as (Hfe & Hfx & _ & Hpres & Hd' & Hxm).
  rewrite <- Hh' in Hpres, Hd', Hxm.
  exists d, (<[key := fresh (dom (<[l' := ODict d]> h))]> d), xl,
    (fresh (dom (<[l' := ODict d]> h))), x, x_mixed.
  repeat split; try done.
  - intros k Hne. by rewrite lookup_insert_ne.
  - rewrite Hpres; [done|]. apply elem_of_dom. by rewrite Hl.
  - rewrite Hpres; [done|]. apply elem_of_dom. by rewrite Hx.
Qed.

Lemma apply_enabled_frame_witness :
  let h := Sample.store_of Sample.x_ones in
  let h' := (apply preset 1%positive true h).2 in
  ∃ d d' xl xm x x_mixed,
    h !! 1%positive = Some (ODict d) ∧ d !! key = Some xl ∧
    h !! xl = Some (OTensor x) ∧
    h' !! 4%positive = Some (ODict d') ∧
    d' = <[key := xm]> d ∧ (∀ k, k ≠ key → d' !! k = d !! k) ∧
    h' !! xm = Some (OTensor x_mixed) ∧ edit preset x = Ok x_mixed ∧
    (4%positive ∉ dom h) ∧ (xm ∉ dom h) ∧
    h' !! 1%positive = Some (ODict d) ∧ h' !! xl = Some (OTensor x) ∧
    preserves h h'.
Proof.
  intros h h'.
  apply (apply_enabled_frame preset 1%positive 4%positive h h').
  vm_compute. reflexivity.
Defined.

(** ** The loudness gate *)

(** C6: for every audio input and threshold, [analyze] with [invert = True]
    returns the negation of what it returns with [invert = False]; an input
    that cannot be converted raises the same exception in both. *)
Theorem analyze_invert {A} `{Scalar A} (torch_tensor : pyobj A → option (tensor A))
    (audio : pyobj A) (threshold : A) :
  analyze torch_tensor audio threshold true =
    match analyze torch_tensor audio threshold false with
    | Ok enabled => Ok (negb enabled)
    | Raise e => Raise e
    end.
Proof. unfold analyze. by destruct (_convert_to_tensor torch_tensor audio). Qed.

(** ** Blending and rescaling *)

Lemma Qneb_false (a b : Q) : (a == b)%Q → Qneb a b = false.
Proof. intros Hab. unfold Qneb. apply negb_false_iff. by apply Qeq_bool_iff. Qed.

Section RowFacts.
Context {A : Type}.
Implicit Types (v w : list (list (list A))) (g : list A → list A → list A).



End RowFacts.

Section RowRms.
Context {A : Type} `{Scalar A}.

End RowRms.

(** ** Binary32 arithmetic on counts and zeros *)

Section Binary32.
Local Open Scope Z_scope.

Lemma digits2_pos_size p : digits2_pos p = Pos.size p.
Proof. induction p as [p IH|p IH|]; simpl; by rewrite ?IH. Qed.

Lemma shr_1_m mrs : 0 ≤ shr_m mrs → shr_m (shr_1 mrs) = shr_m mrs / 2.
Proof.
  destruct mrs as [m r s]. simpl. intros Hm.
  destruct m as [|[p|p|]|p]; simpl; try lia;
    Z.to_euclidean_division_equations; lia.
Qed.

Lemma pow2_xO p : 2 ^ Z.pos p~0 = 2 ^ Z.pos p * 2 ^ Z.pos p.
Proof. rewrite <- Z.pow_add_r by lia. f_equal. lia. Qed.

Lemma pow2_xI p : 2 ^ Z.pos p~1 = 2 * (2 ^ Z.pos p * 2 ^ Z.pos p).
Proof.
  rewrite <- Z.pow_add_r, <- Z.pow_succ_r by lia. f_equal. lia.
Qed.

Lemma iter_pos_shr_1_m p mrs :
  0 ≤ shr_m mrs →
  shr_m (SpecFloat.iter_pos shr_1 p mrs) = shr_m mrs / 2 ^ Zpos p.
Proof.
  revert mrs. induction p as [p IH|p IH|]; intros mrs Hm;
    simpl SpecFloat.iter_pos.
  - assert (H1 : 0 ≤ shr_m (shr_1 mrs))
      by (rewrite shr_1_m by done; apply Z.div_pos; lia).
    assert (H2 : 0 ≤ shr_m (SpecFloat.iter_pos shr_1 p (shr_1 mrs)))
      by (rewrite IH by done; apply Z.div_pos; lia).
    rewrite IH, IH, shr_1_m by done.
    rewrite !Z.div_div by lia. by rewrite pow2_xI.
  - assert (H2 : 0 ≤ shr_m (SpecFloat.iter_pos shr_1 p mrs))
      by (rewrite IH by done; apply Z.div_pos; lia).
    rewrite IH, IH by done.
    rewrite !Z.div_div by lia. by rewrite pow2_xO.
  - rewrite shr_1_m by done. by rewrite Z.pow_1_r.
Qed.

(** Shifting right by [n] bits divides the mantissa by [2^n]. *)
Lemma shr_m_div mrs e n :
  0 ≤ shr_m mrs → 0 ≤ n → shr_m (shr mrs e n).1 = shr_m mrs / 2 ^ n.
Proof.
  intros Hm Hn. destruct n as [|p|p]; simpl; [|by apply iter_pos_shr_1_m|lia].
  by rewrite Z.div_1_r.
Qed.

Lemma shr_e mrs e n : (shr mrs e n).2 = e + Z.max n 0.
Proof. destruct n; simpl; lia. Qed.

Lemma shr_neg mrs e n : n ≤ 0 → shr mrs e n = (mrs, e).
Proof. destruct n; simpl; [done|lia|done]. Qed.

(** A positive number has as many digits as its size says. *)
Lemma Zdigits2_bounds p :
  2 ^ (Zdigits2 (Zpos p) - 1) ≤ Zpos p < 2 ^ Zdigits2 (Zpos p).
Proof.
  simpl. rewrite digits2_pos_size.
  pose proof (Pos.size_gt p) as Hgt. pose proof (Pos.size_le p) as Hle.
  apply Pos2Z.pos_lt_pos in Hgt. apply Pos2Z.pos_le_pos in Hle.
  rewrite Pos2Z.inj_pow in Hgt, Hle.
  replace (Z.pos (Pos.size p)) with (Z.succ (Z.pos (Pos.size p) - 1)) in Hle by lia.
  rewrite Z.pow_succ_r in Hle by lia. lia.
Qed.

Lemma fexp_shift D e :
  1 ≤ D → emin F32.prec F32.emax ≤ e →
  fexp F32.prec F32.emax (D + e) - e ≤ D - 1.
Proof. unfold fexp, emin, F32.prec, F32.emax. lia. Qed.

(** Rounding to the format never shifts a positive mantissa away, as long as
    the exponent is not below the smallest one. *)
Lemma shr_fexp_pos q e l :
  emin F32.prec F32.emax ≤ e →
  0 < shr_m (shr_fexp F32.prec F32.emax (Zpos q) e l).1 ∧
  emin F32.prec F32.emax ≤ (shr_fexp F32.prec F32.emax (Zpos q) e l).2.
Proof.
  intros He. unfold shr_fexp.
  pose proof (Zdigits2_bounds q) as [Hlo Hhi].
  assert (HD : 1 ≤ Zdigits2 (Zpos q)) by (simpl; lia).
  pose proof (fexp_shift _ e HD He) as Hn.
  set (n := fexp F32.prec F32.emax (Zdigits2 (Z.pos q) + e) - e) in *.
  assert (Hm : shr_m (shr_record_of_loc (Z.pos q) l) = Z.pos q)
    by (by destruct l as [|[]]).
  split; [|rewrite shr_e; lia].
  destruct (Z.le_gt_cases n 0) as [Hneg|Hpos].
  - rewrite shr_neg by done. simpl. rewrite Hm. lia.
  - rewrite shr_m_div by lia. rewrite Hm.
    apply Z.div_str_pos. split; [apply Z.pow_pos_nonneg; lia|].
    etrans; [|exact Hlo]. apply Z.pow_le_mono_r; lia.
Qed.

Lemma round_nearest_even_pos mx lx : 0 < mx → 0 < round_nearest_even mx lx.
Proof.
  intros Hmx. destruct lx as [|[]]; simpl; try lia.
  destruct (Z.even mx); lia.
Qed.

Lemma binary_round_aux_pos q e :
  emin F32.prec F32.emax ≤ e →
  is_pos (binary_round_aux F32.prec F32.emax false (Zpos q) e loc_Exact) = true.
Proof.
  intros He. unfold binary_round_aux.
  destruct (shr_fexp_pos q e loc_Exact He) as [Hm1 He1].
  destruct (shr_fexp F32.prec F32.emax (Z.pos q) e loc_Exact) as [mrs1 e1].
  simpl in Hm1, He1.
  pose proof (round_nearest_even_pos (shr_m mrs1) (loc_of_shr_record mrs1) Hm1)
    as Hr.
  destruct (round_nearest_even (shr_m mrs1) (loc_of_shr_record mrs1))
    as [|q'|q']; try lia.
  destruct (shr_fexp_pos q' e1 loc_Exact He1) as [Hm2 _].
  destruct (shr_fexp F32.prec F32.emax (Z.pos q') e1 loc_Exact) as [mrs2 e2].
  simpl in Hm2. destruct (shr_m mrs2); try lia.
  by destruct (e2 <=? F32.emax - F32.prec).
Qed.

(** The float of a positive count is positive. *)
Lemma of_nat_pos n : (0 < n)%nat → is_pos (F32.of_nat n) = true.
Proof.
  intros Hn. unfold F32.of_nat, F32.of_Z, binary_normalize.
  destruct (Z.of_nat n) as [|p|p] eqn:Hp; try lia.
  unfold binary_round, shl_align.
  set (e' := fexp F32.prec F32.emax (Z.pos (digits2_pos p) + 0)).
  assert (He' : emin F32.prec F32.emax ≤ e') by (unfold e', fexp; lia).
  destruct (e' - 0) eqn:Hd; apply binary_round_aux_pos;
    unfold emin, F32.prec, F32.emax in *; lia.
Qed.
End Binary32.

(** ** The order of the values *)

Section Order.
Lemma to_Q_pos m e : (0 < F32.to_Q (S754_finite false m e))%Q.
Proof.
  unfold F32.to_Q. destruct e as [|p|p].
  - unfold Qlt. cbn. lia.
  - unfold Qlt. cbn [inject_Z Qnum Qden]. 
    assert (0 < 2 ^ Z.pos p)%Z by (apply Z.pow_pos_nonneg; lia). nia.
  - unfold Qlt. cbn. lia.
Qed.


Lemma to_Q_zero s : F32.to_Q (S754_zero s) = 0%Q.
Proof. reflexivity. Qed.

Lemma ltb_zero_pos (t : spec_float) :
  SFltb pzero t = true → F32.ltb pzero t = true.
Proof.
  destruct t as [s|[]| |[] m e]; try discriminate; try reflexivity.
  intros _. unfold F32.ltb, F32.compare, pzero. rewrite to_Q_zero.
  by rewrite (proj1 (Qlt_alt _ _) (to_Q_pos m e)).
Qed.

Lemma not_negative_ltb_zero (x : spec_float) (s : bool) :
  not_negative x = true → F32.ltb x (S754_zero s) = false.
Proof.
  destruct x as [s'|[]| |[] m e]; try discriminate; try reflexivity.
  intros _. unfold F32.ltb, F32.compare. rewrite to_Q_zero.
  by rewrite (proj1 (Qgt_alt _ _) (to_Q_pos m e)).
Qed.

Lemma ltb_irrefl (x : spec_float) : F32.ltb x x = false.
Proof.
  unfold F32.ltb, F32.compare.
  destruct x as [s|[]| |s m e]; try reflexivity;
    by rewrite (proj1 (Qeq_alt _ _) (Qeq_refl _)).
Qed.

Lemma ltb_leb_trans (x y z : spec_float) :
  F32.ltb x y = true → F32.leb y z = true → F32.ltb x z = true.
Proof.
  unfold F32.ltb, F32.leb.
  destruct (F32.compare x y) as [[]|] eqn:Hxy; try discriminate. intros _.
  destruct (F32.compare y z) as [[]|] eqn:Hyz; try discriminate; intros _.
  - destruct x as [?|[]| |? ? ?], y as [?|[]| |? ? ?], z as [?|[]| |? ? ?];
      cbn [F32.compare] in Hxy, Hyz |- *;
      try discriminate; try reflexivity;
      simplify_eq;
      apply (proj2 (Qlt_alt _ _)) in Hxy; apply (proj2 (Qeq_alt _ _)) in Hyz;
      by rewrite (proj1 (Qlt_alt _ _) (Qlt_le_trans _ _ _ Hxy (proj2 (Qle_lteq _ _) (or_intror Hyz)))).
  - destruct x as [?|[]| |? ? ?], y as [?|[]| |? ? ?], z as [?|[]| |? ? ?];
      cbn [F32.compare] in Hxy, Hyz |- *;
      try discriminate; try reflexivity;
      simplify_eq;
      apply (proj2 (Qlt_alt _ _)) in Hxy; apply (proj2 (Qlt_alt _ _)) in Hyz;
      by rewrite (proj1 (Qlt_alt _ _) (Qlt_trans _ _ _ Hxy Hyz)).
Qed.
End Order.

Lemma sum_sq_zeros (l : list spec_float) :
  forallb is_zero l = true → total ((λ v, fmul v v) <$> l) = pzero.
Proof.
  unfold total. change (fsum ?l) with (F32.sum_seq l). unfold F32.sum_seq.
  change (F32.of_nat 0) with pzero.
  induction l as [|v l IH]; [reflexivity|].
  cbn [forallb]. intros [Hv Hl]%andb_true_iff.
  rewrite fmap_cons. cbn [foldl].
  destruct v as [s| | |]; try discriminate.
  replace (SFadd F32.prec F32.emax pzero (fmul (S754_zero s) (S754_zero s)))
    with pzero by (by destruct s).
  by apply IH.
Qed.

Lemma div_zero_pos (y : spec_float) : is_pos y = true → fdiv pzero y = pzero.
Proof. by destruct y as [|[]| |[] ? ?]. Qed.

(** The RMS of a buffer of zeros, however long, is [+0]. *)
Lemma raw_rms_zeros (t : tensor spec_float) :
  data t ≠ [] → forallb is_zero (data t) = true → raw_rms t = pzero.
Proof.
  intros Hne Hz. unfold raw_rms, mean.
  rewrite (sum_sq_zeros _ Hz), length_fmap, div_zero_pos; [reflexivity|].
  apply of_nat_pos. destruct (data t); [done|simpl; lia].
Qed.

(** The RMS of the empty buffer is [0/0], which is NaN. *)
Lemma raw_rms_empty (t : tensor spec_float) : data t = [] → raw_rms t = S754_nan.
Proof. intros Ht. unfold raw_rms. by rewrite Ht. Qed.


(** ** Laws of binary32 arithmetic *)

Lemma binary_round_aux_not_negative prec emax mx ex lx :
  not_negative (binary_round_aux prec emax false mx ex lx) = true.
Proof.
  unfold binary_round_aux.
  destruct (shr_fexp prec emax mx ex lx) as [mrs1 e1].
  destruct (shr_fexp prec emax _ e1 loc_Exact) as [mrs2 e2].
  destruct (shr_m mrs2); [done| |done].
  by destruct (e2 <=? emax - prec)%Z.
Qed.

Section Binary32Laws.
Local Open Scope Z_scope.

(** The float of a positive integer is positive. *)
Lemma of_Z_pos p : is_pos (F32.of_Z (Z.pos p)) = true.
Proof.
  unfold F32.of_Z, binary_normalize.
  unfold binary_round, shl_align.
  set (e' := fexp F32.prec F32.emax (Z.pos (digits2_pos p) + 0)).
  assert (He' : emin F32.prec F32.emax ≤ e') by (unfold e', fexp; lia).
  destruct (e' - 0) eqn:Hd; apply binary_round_aux_pos;
    unfold emin, F32.prec, F32.emax in *; lia.
Qed.

(** A literal equal to 0 is [+0.0]. *)
Lemma of_Q_zero (q : Q) : (q == 0)%Q → F32.of_Q q = pzero.
Proof.
  intros Hq. unfold F32.of_Q.
  assert (Hn : Qnum q = 0) by (unfold Qeq in Hq; simpl in Hq; lia).
  rewrite Hn. change (F32.of_Z 0) with pzero.
  apply div_zero_pos, of_Z_pos.
Qed.

(** [0 · e] is a zero when [e] is a number. *)
Lemma mul_zero_finite (e : spec_float) :
  F32.is_finite e = true → is_zero (SFmul F32.prec F32.emax pzero e) = true.
Proof. by destruct e as [?|?| |? ? ?]. Qed.


(** Adding a zero changes at most the sign of a zero. *)
Lemma add_zero_r (a z : spec_float) :
  is_zero z = true →
  SFadd F32.prec F32.emax a z = a ∨
  (a = S754_zero true ∧ SFadd F32.prec F32.emax a z = pzero).
Proof.
  destruct z as [s| | |]; try discriminate. intros _.
  destruct a as [[]|?| |? ? ?], s; cbn; auto.
Qed.

Lemma add_zero_l (z e : spec_float) :
  is_zero z = true → keeps_value e (SFadd F32.prec F32.emax z e).
Proof.
  destruct z as [s| | |]; try discriminate. intros _.
  destruct e as [[]|?| |? ? ?], s; cbn; unfold keeps_value; auto.
Qed.

(** [1 · a] is [a], bit for bit, for every binary32 value: the product
    of the mantissas is shifted back by 23 places, exactly. *)
Lemma mul_one_l (a : spec_float) :
  F32.valid a = true → SFmul F32.prec F32.emax (F32.of_Q 1) a = a.
Proof.
  change (F32.of_Q 1) with (S754_finite false 8388608 (-23)).
  destruct a as [s|s| |s m e]; try reflexivity.
  unfold F32.valid, valid_binary, bounded, canonical_mantissa.
  intros [Hc He]%andb_true_iff.
  apply Z.eqb_eq in Hc. apply Z.leb_le in He.
  unfold SFmul. cbn [xorb].
  change (8388608 * m)%positive
    with (m~0~0~0~0~0~0~0~0~0~0~0~0~0~0~0~0~0~0~0~0~0~0~0)%positive.
  set (m' := (m~0~0~0~0~0~0~0~0~0~0~0~0~0~0~0~0~0~0~0~0~0~0~0)%positive).
  assert (H1 : shr_fexp F32.prec F32.emax (Z.pos m') (-23 + e) loc_Exact =
               ({| shr_m := Z.pos m; shr_r := false; shr_s := false |}, e)).
  { unfold shr_fexp.
    replace (fexp F32.prec F32.emax (Zdigits2 (Z.pos m') + (-23 + e)) - (-23 + e))
      with 23.
    - unfold shr. cbn. f_equal. lia.
    - unfold m', Zdigits2. cbn [digits2_pos].
      rewrite !Pos2Z.inj_succ.
      replace (Z.succ (Z.succ (Z.succ (Z.succ (Z.succ (Z.succ (Z.succ (Z.succ
                (Z.succ (Z.succ (Z.succ (Z.succ (Z.succ (Z.succ (Z.succ (Z.succ
                (Z.succ (Z.succ (Z.succ (Z.succ (Z.succ (Z.succ (Z.succ
                (Z.pos (digits2_pos m)))))))))))))))))))))))) + (-23 + e))
        with (Z.pos (digits2_pos m) + e) by lia.
      rewrite Hc. lia. }
  assert (H2 : shr_fexp F32.prec F32.emax (Z.pos m) e loc_Exact =
               ({| shr_m := Z.pos m; shr_r := false; shr_s := false |}, e)).
  { unfold shr_fexp, Zdigits2. rewrite Hc, Z.sub_diag. reflexivity. }
  unfold binary_round_aux. rewrite H1. cbn [shr_m loc_of_shr_record shr_r shr_s
    round_nearest_even]. rewrite H2. cbn [shr_m].
  destruct (e <=? F32.emax - F32.prec) eqn:Hle; [reflexivity|].
  apply Z.leb_gt in Hle. lia.
Qed.


End Binary32Laws.

(** ** Relations between tensors, element by element *)

Section Pointwise.
Context {X Y X' Y' Z : Type}.

Lemma Forall2_zip_with_fmap (R : X → Z → Prop) (P : X → Prop) (Q : Y → Prop)
    (f : X' → Y' → Z) (g : X → X') (h : Y → Y') (l : list X) (k : list Y) :
  (∀ a b, P a → Q b → R a (f (g a) (h b))) →
  length l = length k → Forall P l → Forall Q k →
  Forall2 R l (zip_with f (g <$> l) (h <$> k)).
Proof.
  intros HR Hlen Hl. revert k Hlen.
  induction Hl as [|a l Ha Hl IH]; intros [|b k] Hlen Hk; try done.
  apply Forall_cons in Hk as [Hb Hk]. cbn. constructor; [by apply HR|].
  apply IH; [by injection Hlen|done].
Qed.

Lemma Forall2_zip_with_fmap_r (R : Y → Z → Prop) (P : X → Prop) (Q : Y → Prop)
    (f : X' → Y' → Z) (g : X → X') (h : Y → Y') (l : list X) (k : list Y) :
  (∀ a b, P a → Q b → R b (f (g a) (h b))) →
  length l = length k → Forall P l → Forall Q k →
  Forall2 R k (zip_with f (g <$> l) (h <$> k)).
Proof.
  intros HR Hlen Hl. revert k Hlen.
  induction Hl as [|a l Ha Hl IH]; intros [|b k] Hlen Hk; try done.
  apply Forall_cons in Hk as [Hb Hk]. cbn. constructor; [by apply HR|].
  apply IH; [by injection Hlen|done].
Qed.
End Pointwise.

Lemma Forall2_mjoin {X Z} (R : X → Z → Prop) (ls : list (list X))
    (ks : list (list Z)) :
  Forall2 (Forall2 R) ls ks → Forall2 R (mjoin ls) (mjoin ks).
Proof.
  induction 1 as [|l k ls ks Hlk _ IH]; [constructor|].
  cbn. by apply Forall2_app.
Qed.

Lemma Forall_mjoin {X} (P : X → Prop) (ls : list (list X)) :
  Forall P (mjoin ls) → Forall (Forall P) ls.
Proof.
  induction ls as [|l ls IH]; [constructor|].
  cbn. intros [Hl Hls]%Forall_app. constructor; auto.
Qed.

Lemma Forall_flat3 {X} (P : X → Prop) (v : list (list (list X))) :
  Forall P (flat3 v) → Forall (Forall (Forall P)) v.
Proof.
  unfold flat3. intros Hv%Forall_mjoin.
  rewrite Forall_fmap in Hv. eapply Forall_impl; [exact Hv|].
  intros p Hp. by apply Forall_mjoin.
Qed.

(** Elementwise [f (g a) (h b)] over two tensors of one shape, related to
    the first and to the second tensor. *)
Lemma Forall2_flat3_zip3 {X} (R : X → X → Prop) (P Q : X → Prop)
    (f : X → X → X) (g h : X → X) T B C (v w : list (list (list X))) :
  (∀ a b, P a → Q b → R a (f (g a) (h b))) →
  shaped3 T B C v → shaped3 T B C w →
  Forall P (flat3 v) → Forall Q (flat3 w) →
  Forall2 R (flat3 v) (flat3 (zip3 f (map3 g v) (map3 h w))).
Proof.
  intros HR [HvT Hv] [HwT Hw] HP%Forall_flat3 HQ%Forall_flat3.
  unfold flat3. apply Forall2_mjoin, Forall2_fmap.
  unfold zip3, map3.
  apply (Forall2_zip_with_fmap _
           (λ p, shaped2 B C p ∧ Forall (Forall P) p)
           (λ p, shaped2 B C p ∧ Forall (Forall Q) p)).
  - intros p q [[HpB Hp] HpP] [[HqB Hq] HqQ]. apply Forall2_mjoin.
    apply (Forall2_zip_with_fmap _
             (λ r, length r = C ∧ Forall P r) (λ r, length r = C ∧ Forall Q r)).
    + intros r r' [Hr HrP] [Hr' Hr'Q].
      apply (Forall2_zip_with_fmap _ P Q); [done|congruence|done..].
    + congruence.
    + apply Forall_and; split; done.
    + apply Forall_and; split; done.
  - congruence.
  - apply Forall_and; split; done.
  - apply Forall_and; split; done.
Qed.

Lemma Forall2_flat3_zip3_r {X} (R : X → X → Prop) (P Q : X → Prop)
    (f : X → X → X) (g h : X → X) T B C (v w : list (list (list X))) :
  (∀ a b, P a → Q b → R b (f (g a) (h b))) →
  shaped3 T B C v → shaped3 T B C w →
  Forall P (flat3 v) → Forall Q (flat3 w) →
  Forall2 R (flat3 w) (flat3 (zip3 f (map3 g v) (map3 h w))).
Proof.
  intros HR [HvT Hv] [HwT Hw] HP%Forall_flat3 HQ%Forall_flat3.
  unfold flat3. apply Forall2_mjoin, Forall2_fmap.
  unfold zip3, map3.
  apply (Forall2_zip_with_fmap_r _
           (λ p, shaped2 B C p ∧ Forall (Forall P) p)
           (λ p, shaped2 B C p ∧ Forall (Forall Q) p)).
  - intros p q [[HpB Hp] HpP] [[HqB Hq] HqQ]. apply Forall2_mjoin.
    apply (Forall2_zip_with_fmap_r _
             (λ r, length r = C ∧ Forall P r) (λ r, length r = C ∧ Forall Q r)).
    + intros r r' [Hr HrP] [Hr' Hr'Q].
      apply (Forall2_zip_with_fmap_r _ P Q); [done|congruence|done..].
    + congruence.
    + apply Forall_and; split; done.
    + apply Forall_and; split; done.
  - congruence.
  - apply Forall_and; split; done.
  - apply Forall_and; split; done.
Qed.

Lemma Forall2_keeps_value_eq (l k : list spec_float) :
  Forall2 keeps_value l k → Forall (λ v, v ≠ S754_zero true) l → k = l.
Proof.
  induction 1 as [|a b l k Hab _ IH]; [done|].
  intros [Ha Hl]%Forall_cons. f_equal; [|by apply IH].
  by destruct Hab as [->|[-> _]].
Qed.



(** ** The stages of the chain *)

(** C2: on a tensor that passed the shape test, with more than one time step
    and [β > 0], the smoothing stage yields, for each band and channel, the
    scan [s] started at [x[0]] with [s ← β·s + (1−β)·x[t]] for [t ≥ 1], the
    value at time [t] being that [s] and the value at time 0 being [x[0]];
    with exactly one time step, or with [β = 0], the stage returns its
    input. *)
Theorem smooth_is_scan {A} `{Scalar A} (ema_beta : Q) (x : tensor A) (d : A) :
  valid_shape x → tensor_wf x →
  let T := shape x !!! 0 in
  let C := shape x !!! 2 in
  let x_orig := view3 T 5 C (data x) in
  (1 < T → (0 < ema_beta)%Q →
   ∀ t b c, t < T → b < 5 → c < C →
     elem d (smooth ema_beta T x_orig) t b c =
       ema_scan (of_Q ema_beta) (λ t', elem d x_orig t' b c) t) ∧
  (T = 1 ∨ (ema_beta == 0)%Q → smooth ema_beta T x_orig = x_orig).
Proof.
  intros Hv Hwf T C x_orig. split.
  - intros HT Hbeta. apply smooth_scan_shaped; [|done..].
    by apply view3_data_shaped.
  - apply smooth_skip.
Qed.

Lemma smooth_is_scan_witness :
  let x_orig := view3 2 5 1 (data Sample.x_steps) in
  (1 < 2 → (0 < 9 # 10)%Q →
   ∀ t b c, t < 2 → b < 5 → c < 1 →
     elem (of_Q 0) (smooth (9 # 10) 2 x_orig) t b c =
       ema_scan (of_Q (9 # 10)) (λ t', elem (of_Q 0) x_orig t' b c) t) ∧
  (2 = 1 ∨ (9 # 10 == 0)%Q → smooth (9 # 10) 2 x_orig = x_orig).
Proof.
  apply (smooth_is_scan (9 # 10) Sample.x_steps (of_Q 0)).
  - split; reflexivity.
  - reflexivity.
Defined.

(** C3, as stated, fails: the global gain is applied after the blend.  With
    [α = 0] and a global gain of 2, the tensor of ones comes back as a tensor
    of twos. *)
Lemma blend_back_counterexample :
  PRESET_ALPHA_MIX Sample.cfg_gain2 = 0%Q ∧
  edit Sample.cfg_gain2 (Sample.x_unit (A:=spec_float)) ≠ Ok Sample.x_unit ∧
  edit Sample.cfg_gain2 (Sample.x_unit (A:=spec_float)) =
    Ok (Tensor [1; 5; 1] (replicate 5 (of_Q 2))).
Proof.
  split; [reflexivity|]. split.
  - intros Heq. vm_compute in Heq. discriminate.
  - vm_compute. reflexivity.
Qed.

(** The law also needs the edited values to stay finite: with
    [α = 0], global gain 1 and no clamp, the gain of 4 takes [2^127] to
    infinity, and [0 · ∞] is NaN. *)
Remark blend_back_overflow :
  edit Sample.cfg_alpha0 Sample.x_big =
    Ok (Tensor [1; 5; 1]
          ([S754_nan; S754_nan] ++ replicate 3 (S754_finite false 8388608 104))).
Proof. vm_compute. reflexivity. Qed.

(** Nor is the result always [x] bit for bit: a [-0.0] of the input whose
    smoothed value is positive meets [0 · x_edit = +0.0] and comes back as
    [+0.0]. *)
Remark blend_back_zero_sign :
  edit Sample.cfg_alpha0 Fixture.x_signed =
    Ok (Tensor [2; 5; 1] (replicate 5 (of_Q 1) ++ replicate 5 (S754_zero false))).
Proof. vm_compute. reflexivity. Qed.

Section BlendBack.
Variable reduce : list spec_float → spec_float.
Let S : Scalar spec_float := f32_with reduce.
Local Existing Instance S.

Lemma blend_zero_elem (q : Q) (a e : spec_float) :
  (q == 0)%Q → F32.valid a = true → F32.is_finite e = true →
  keeps_value a (fadd (fmul (fsub (of_Q 1) (of_Q q)) a) (fmul (of_Q q) e)).
Proof.
  intros Hq Ha He. cbn.
  rewrite (of_Q_zero q Hq).
  change (SFsub F32.prec F32.emax (F32.of_Q 1) pzero) with (F32.of_Q 1).
  rewrite (mul_one_l a Ha).
  destruct (add_zero_r a _ (mul_zero_finite e He)) as [->|[-> ->]];
    [by left|by right].
Qed.

(** C3, amended: in binary32, whatever the order in which the reductions
    add, on a tensor of binary32 values that passed the shape test, with
    five gains, [α = 0], a global gain of 1, the clamp off and every value of
    [x_edit] a number (neither NaN nor infinite), the chain returns a tensor
    of the shape of [x] whose elements are those of [x], bit for bit, except
    that a [-0.0] may come back as [+0.0]; it returns [x] itself when [x]
    holds no [-0.0].  The five gains, [β] and the RMS flag are free. *)
Theorem edit_blend_back (cfg : config) (x : tensor spec_float) :
  valid_shape x → tensor_wf x →
  length (PRESET_GAINS cfg) = 5 →
  (PRESET_ALPHA_MIX cfg == 0)%Q →
  (PRESET_GLOBAL_GAIN cfg == 1)%Q →
  (PRESET_CLAMP_STD cfg <= 0)%Q →
  let T := shape x !!! 0 in
  let x_orig := view3 T 5 (shape x !!! 2) (data x) in
  Forall (λ v, F32.valid v = true) (data x) →
  Forall (λ v, F32.is_finite v = true) (flat3 (edited cfg T x_orig)) →
  ∃ out, edit cfg x = Ok out ∧
    shape out = shape x ∧
    Forall2 keeps_value (data x) (data out) ∧
    (Forall (λ v, v ≠ S754_zero true) (data x) → out = x).
Proof.
  intros Hv Hwf Hg Halpha Hgain Hclamp T x_orig Hx He.
  pose proof (view3_data_shaped x Hv Hwf) as Hsh. fold T x_orig in Hsh.
  assert (Hd : flat3 x_orig = data x).
  { apply flat3_view3. unfold tensor_wf in Hwf.
    by rewrite Hwf, (valid_shape_numel x Hv). }
  assert (Hout : edit cfg x =
            Ok (Tensor (shape x)
                  (flat3 (blend (PRESET_ALPHA_MIX cfg) x_orig
                            (edited cfg T x_orig))))).
  { unfold edit. rewrite Hg. cbn [Nat.eqb negb].
    unfold global_gain, clamp_std.
    by rewrite (Qneb_false _ _ Hgain), (Qgtb_false _ _ Hclamp). }
  assert (Hrel : Forall2 keeps_value (data x)
            (flat3 (blend (PRESET_ALPHA_MIX cfg) x_orig (edited cfg T x_orig)))).
  { rewrite <- Hd at 1. unfold blend.
    eapply (Forall2_flat3_zip3 keeps_value (λ v, F32.valid v = true)
              (λ v, F32.is_finite v = true));
      [| exact Hsh | | by rewrite Hd | done].
    - intros a e Ha Hfin. by apply blend_zero_elem.
    - by apply edited_shaped. }
  eexists. split; [exact Hout|]. split; [reflexivity|]. split; [exact Hrel|].
  intros Hnz. cbn [data]. rewrite (Forall2_keeps_value_eq _ _ Hrel Hnz).
  by destruct x.
Qed.
End BlendBack.

Lemma edit_blend_back_witness :
  (∃ out, edit Sample.cfg_alpha0 Fixture.x_signed = Ok out ∧
     shape out = [2; 5; 1] ∧
     Forall2 keeps_value (data Fixture.x_signed) (data out)) ∧
  edit Sample.cfg_alpha0 Sample.x_steps = Ok Sample.x_steps.
Proof.
  split.
  - destruct (edit_blend_back F32.sum_seq Sample.cfg_alpha0 Fixture.x_signed)
      as (out & Hout & Hshape & Hrel & _).
    + split; reflexivity.
    + reflexivity.
    + reflexivity.
    + reflexivity.
    + reflexivity.
    + discriminate.
    + repeat constructor.
    + vm_compute. repeat constructor.
    + exists out. split; [exact Hout|]. split; [exact Hshape|exact Hrel].
  - destruct (edit_blend_back F32.sum_seq Sample.cfg_alpha0 Sample.x_steps)
      as (out & Hout & _ & _ & Hsame).
    + split; reflexivity.
    + reflexivity.
    + reflexivity.
    + reflexivity.
    + reflexivity.
    + discriminate.
    + repeat constructor.
    + vm_compute. repeat constructor.
    + assert (Hx : out = Sample.x_steps)
        by (apply Hsame; vm_compute; repeat constructor; discriminate).
      rewrite Hx in Hout. exact Hout.
Defined.


(** Nor is a row above the floor always restored: the square of [2^83]
    is infinite, both RMS values are infinite, and the rescaled rows are
    NaN. *)
Remark rms_preservation_overflow :
  edit Sample.cfg_rms Fixture.x_huge =
    Ok (Tensor [1; 5; 1] (replicate 5 S754_nan)).
Proof. vm_compute. reflexivity. Qed.

Section RmsRescale.
Variable reduce : list spec_float → spec_float.
Let S : Scalar spec_float := f32_with reduce.
Local Existing Instance S.


End RmsRescale.


(** Where nothing is floored and nothing overflows the RMS can come back
    exactly: the tensor of ones, rescaled by its gains and back. *)
Example rms_preserved_on_ones :
  edit Sample.cfg_rms Sample.x_ones = Ok Sample.x_ones.
Proof. vm_compute. reflexivity. Qed.

(** ** The gate on empty, degenerate and silent buffers *)

(** C7: in binary32, the RMS of an empty buffer is NaN and is returned as
    [0.0], as is every RMS that is NaN or infinite; and for every audio
    input converted to a non-empty buffer of zeros and every threshold
    above 0, the RMS is [0.0] and [analyze] with [invert = False] returns
    [True]. *)
Theorem calculate_rms_absorbs_nonfinite :
  (∀ t : tensor spec_float, data t = [] →
     raw_rms t = S754_nan ∧ _calculate_rms t = pzero) ∧
  (∀ t : tensor spec_float,
     fisnan (raw_rms t) || fisinf (raw_rms t) = true → _calculate_rms t = pzero) ∧
  (∀ (torch_tensor : pyobj spec_float → option (tensor spec_float))
     (audio : pyobj spec_float) (t : tensor spec_float) (threshold : spec_float),
     _convert_to_tensor torch_tensor audio = Ok t →
     data t ≠ [] → forallb is_zero (data t) = true →
     SFltb pzero threshold = true →
     _calculate_rms t = pzero ∧
     analyze torch_tensor audio threshold false = Ok true).
Proof.
  split; [|split].
  - intros t Ht. split; [by apply raw_rms_empty|].
    unfold _calculate_rms. by rewrite (raw_rms_empty t Ht).
  - intros t Hnf. unfold _calculate_rms. by rewrite Hnf.
  - intros torch_tensor audio t threshold Hconv Hne Hz Hthr.
    assert (Hrms : _calculate_rms t = pzero)
      by (unfold _calculate_rms; by rewrite (raw_rms_zeros t Hne Hz)).
    split; [done|]. unfold analyze. rewrite Hconv, Hrms.
    cbn [fltb f32_scalar f32_with]. by rewrite (ltb_zero_pos _ Hthr).
Qed.

Lemma calculate_rms_absorbs_nonfinite_witness :
  _calculate_rms Sample.silence = pzero ∧
  analyze torch_tensor_nested Sample.audio_silence (of_Q (1 # 100)) false
    = Ok true.
Proof.
  apply (proj2 (proj2 calculate_rms_absorbs_nonfinite)
           torch_tensor_nested Sample.audio_silence Sample.silence
           (of_Q (1 # 100))).
  - reflexivity.
  - discriminate.
  - reflexivity.
  - reflexivity.
Defined.

(** ** The worked examples, run in binary32 *)

(** A [3, 5, 4] tensor of ones under the presets: each band comes out as its
    gain, the smoothing of a constant input changing nothing. *)
Example edit_ones :
  edit preset Sample.x_ones =
    Ok (Tensor [3; 5; 4]
          (mjoin (replicate 3
             (mjoin ((λ g, replicate 4 (of_Q g)) <$> PRESET_GAINS preset))))).
Proof. vm_compute. reflexivity. Qed.

(** [[0.0, 0.0, 0.0]] with threshold 0.01 is silent. *)
Example analyze_silence :
  analyze torch_tensor_nested Sample.audio_silence (of_Q (1 # 100)) false
    = Ok true.
Proof. vm_compute. reflexivity. Qed.

(** [[1.0, -1.0, 1.0, -1.0]] has RMS 1.0 and is not silent. *)
Example analyze_square_wave :
  let audio : pyobj spec_float :=
    PyList (PyNum <$> [of_Q 1; of_Q (-1); of_Q 1; of_Q (-1)]) in
  (_calculate_rms <$> torch_tensor_nested audio) = Some (of_Q 1) ∧
  analyze torch_tensor_nested audio (of_Q (1 # 100)) false = Ok false.
Proof. split; vm_compute; reflexivity. Qed.

(** A list of two rows is read as a (sample rate, data) pair: only the second
    row is measured. *)
Example analyze_two_rows :
  let loud : pyobj spec_float := PyList (PyNum <$> [of_Q 1; of_Q 1]) in
  let quiet : pyobj spec_float := PyList (PyNum <$> [of_Q 0; of_Q 0]) in
  analyze torch_tensor_nested (PyList [loud; quiet]) (of_Q (1 # 100)) false
    = Ok true.
Proof. vm_compute. reflexivity. Qed.

(** * Further properties of the code *)

(** ** [apply] and the store, on every path *)

(** X1: whatever the flag, the store and the outcome (a result or any of the
    exceptions), [apply] leaves every object the store held as it was: it
    only adds objects. *)
Theorem apply_never_mutates {A} `{Scalar A} (cfg : config) (l : loc)
    (enabled : bool) (h : gmap loc (obj A)) :
  preserves h (apply cfg l enabled h).2.
Proof.
  destruct enabled; [|apply preserves_refl].
  unfold apply, mbind, M_bind, deref, alloc, raise, lift, store, mret, M_ret.
  cbn [negb].
  destruct (h !! l) as [[d| |]|]; cbn; try apply preserves_refl.
  set (e := fresh (dom h)). set (h1 := <[e := ODict d]> h).
  assert (H1 : preserves h h1) by apply preserves_alloc.
  destruct (d !! key) as [xl|]; cbn; [|exact H1].
  destruct (h1 !! xl) as [[| x |]|]; cbn; try exact H1.
  destruct (negb (ndim x =? 3) || negb (shape x !!! 1 =? 5)); cbn; [exact H1|].
  destruct (edit cfg x) as [x_mixed|]; cbn; [|exact H1].
  destruct (apply_enabled_store h d e _ x_mixed eq_refl eq_refl)
    as (_ & _ & _ & Hp & _). exact Hp.
Qed.

(** X2: the mapping returned by a successful call is again a valid input:
    with five gains, a second call on it succeeds, its tensor is the edit of
    the edit and has the shape of the first input, and the objects of the
    first store are still as they were. *)
Theorem apply_chains {A} `{Scalar A} (cfg : config) (l l1 : loc)
    (h h1 : gmap loc (obj A)) :
  length (PRESET_GAINS cfg) = 5 →
  apply cfg l true h = (Ok l1, h1) →
  ∃ l2 h2 d2 xl xm2 x x1 x2,
    apply cfg l1 true h1 = (Ok l2, h2) ∧
    (∃ d, h !! l = Some (ODict d) ∧ d !! key = Some xl) ∧
    h !! xl = Some (OTensor x) ∧
    edit cfg x = Ok x1 ∧ edit cfg x1 = Ok x2 ∧
    h2 !! l2 = Some (ODict d2) ∧ d2 !! key = Some xm2 ∧
    h2 !! xm2 = Some (OTensor x2) ∧
    shape x2 = shape x ∧ preserves h h2.
Proof.
  intros Hg Happ.
  destruct (apply_enabled_inv cfg l h l1 h1 Happ)
    as (d & xl & x & x1 & Hl & Hk & Hx & Hv & He & Hl1 & Hh1).
  destruct (apply_enabled_store h d l1 _ x1 Hl1 eq_refl)
    as (_ & _ & _ & Hpres & Hd1 & Hxm).
  rewrite <- Hh1 in Hpres, Hd1, Hxm.
  set (xm := fresh (dom (<[l1 := ODict d]> h))) in *.
  destruct (edit_ok cfg x Hg) as (x1' & He' & Hs1 & _).
  rewrite He in He'. injection He' as <-.
  assert (Hv1 : valid_shape x1) by (unfold valid_shape, ndim in *; by rewrite Hs1).
  destruct (edit_ok cfg x1 Hg) as (x2 & He2 & Hs2 & _).
  pose proof (apply_enabled_tensor cfg l1 h1 (<[key := xm]> d) xm x1 Hd1
                (lookup_insert_eq _ _ _) Hxm) as Happ2.
  cbn zeta in Happ2.
  rewrite (proj2 (valid_shape_test x1) Hv1), He2 in Happ2.
  destruct (apply_enabled_store h1 (<[key := xm]> d) _ _ x2 eq_refl eq_refl)
    as (_ & _ & _ & Hpres2 & Hd2 & Hxm2).
  eexists _, _, _, xl, _, x, x1, x2. split; [exact Happ2|].
  split; [by exists d|]. split; [done|]. split; [done|]. split; [done|].
  split; [exact Hd2|]. split; [apply lookup_insert_eq|]. split; [exact Hxm2|].
  split; [by rewrite Hs2|]. by eapply preserves_trans.
Qed.

Lemma apply_chains_witness :
  let h := Sample.store_of Sample.x_ones in
  let h1 := (apply preset 1%positive true h).2 in
  ∃ l2 h2 d2 xl xm2 x x1 x2,
    apply preset 4%positive true h1 = (Ok l2, h2) ∧
    (∃ d, h !! 1%positive = Some (ODict d) ∧ d !! key = Some xl) ∧
    h !! xl = Some (OTensor x) ∧
    edit preset x = Ok x1 ∧ edit preset x1 = Ok x2 ∧
    h2 !! l2 = Some (ODict d2) ∧ d2 !! key = Some xm2 ∧
    h2 !! xm2 = Some (OTensor x2) ∧
    shape x2 = shape x ∧ preserves h h2.
Proof.
  intros h h1. apply (apply_chains preset 1%positive 4%positive h h1).
  - reflexivity.
  - vm_compute. reflexivity.
Defined.

(** ** Edge cases and element-wise form of the chain *)

(** X3: a tensor of the right shape without elements (no time step, or no
    channel) comes out of the chain as it went in, whatever the five gains
    and the other parameters, the clamp included. *)
Theorem edit_no_elements {A} `{Scalar A} (cfg : config) (x : tensor A) :
  length (PRESET_GAINS cfg) = 5 →
  valid_shape x → tensor_wf x → numel (shape x) = 0 →
  edit cfg x = Ok x.
Proof.
  intros Hg Hv Hwf Hn.
  destruct (edit_ok cfg x Hg) as (x' & -> & Hs & Hwf').
  specialize (Hwf' Hv Hwf). unfold tensor_wf in *.
  rewrite Hs, Hn in Hwf'. rewrite Hn in Hwf.
  destruct x as [s dx], x' as [s' dx']. simpl in *. subst s'.
  destruct dx; [|discriminate]. destruct dx'; [|discriminate]. reflexivity.
Qed.

Lemma edit_no_elements_witness :
  edit Fixture.cfg_all Fixture.x_empty = Ok Fixture.x_empty.
Proof.
  apply (edit_no_elements Fixture.cfg_all Fixture.x_empty).
  - reflexivity.
  - split; reflexivity.
  - reflexivity.
  - reflexivity.
Defined.

Lemma Qgtb_inv (a b : Q) : Qgtb a b = true → (b < a)%Q.
Proof.
  unfold Qgtb. intros Hn%negb_true_iff. apply Qnot_le_lt. intros Hle.
  apply Qle_bool_iff in Hle. congruence.
Qed.

Section SmoothElements.
Context {A : Type} `{Scalar A}.

(** The scan at [t] reads the input up to [t] only. *)
Lemma ema_scan_ext (beta : A) (x y : nat → A) t :
  (∀ t', t' ≤ t → x t' = y t') → ema_scan beta x t = ema_scan beta y t.
Proof.
  induction t as [|t IH]; intros Hxy; cbn [ema_scan]; [apply Hxy; lia|].
  rewrite IH by (intros; apply Hxy; lia). by rewrite (Hxy (S t)).
Qed.

(** Whichever branch of line 77 is taken, the smoothed element is the scan
    when [β > 0] and the input element otherwise. *)
Lemma smooth_elem ema_beta T B C (x : list (list (list A))) (d : A) t b c :
  shaped3 T B C x → t < T → b < B → c < C →
  elem d (smooth ema_beta T x) t b c =
    if Qgtb ema_beta 0
    then ema_scan (of_Q ema_beta) (λ t', elem d x t' b c) t
    else elem d x t b c.
Proof.
  intros Hx Ht Hb Hc. destruct (Qgtb ema_beta 0) eqn:Hbeta.
  - destruct (decide (1 < T)) as [HT|HT].
    + apply (smooth_scan_shaped ema_beta T B C); try done. by apply Qgtb_inv.
    + assert (t = 0) as -> by lia. unfold smooth.
      rewrite (proj2 (Nat.ltb_ge 1 T)) by lia. reflexivity.
  - unfold smooth. by rewrite Hbeta, andb_false_r.
Qed.

(** The gain of band [b] multiplies every element of that band. *)
Lemma mul_gains_elem T B C (x : list (list (list A))) (gains : list A)
    (d g : A) t b c :
  shaped3 T B C x → gains !! b = Some g → t < T → b < B → c < C →
  elem d (mul_gains x gains) t b c = fmul (elem d x t b c) g.
Proof.
  intros [Hx Hall] Hg Ht Hb Hc. unfold elem, mul_gains.
  destruct (lookup_lt_is_Some_2 x t) as [p Hp]; [lia|].
  destruct (Forall_lookup_1 _ _ _ _ Hall Hp) as [HpB Hrows].
  destruct (lookup_lt_is_Some_2 p b) as [row Hrow]; [lia|].
  pose proof (Forall_lookup_1 _ _ _ _ Hrows Hrow) as Hlen. simpl in Hlen.
  destruct (lookup_lt_is_Some_2 row c) as [v Hv]; [lia|].
  rewrite !nth_lookup, list_lookup_fmap, Hp. simpl.
  rewrite lookup_zip_with, Hrow, Hg. simpl.
  by rewrite list_lookup_fmap, Hv.
Qed.
End SmoothElements.

(** X4: smoothing is causal.  Two tensors with the same channel count that
    agree on every element up to time [t] have the same smoothed elements at
    time [t], even when they differ later or have different lengths (one may
    be a prefix of the other). *)
Theorem smooth_causal {A} `{Scalar A} (ema_beta : Q) (x y : tensor A) (d : A)
    (t : nat) :
  valid_shape x → tensor_wf x → valid_shape y → tensor_wf y →
  shape x !!! 2 = shape y !!! 2 →
  t < shape x !!! 0 → t < shape y !!! 0 →
  let C := shape x !!! 2 in
  let x_orig := view3 (shape x !!! 0) 5 C (data x) in
  let y_orig := view3 (shape y !!! 0) 5 C (data y) in
  (∀ t' b c, t' ≤ t → b < 5 → c < C →
     elem d x_orig t' b c = elem d y_orig t' b c) →
  ∀ b c, b < 5 → c < C →
    elem d (smooth ema_beta (shape x !!! 0) x_orig) t b c =
    elem d (smooth ema_beta (shape y !!! 0) y_orig) t b c.
Proof.
  intros Hvx Hwx Hvy Hwy HC Htx Hty C x_orig y_orig Hagree b c Hb Hc.
  pose proof (view3_data_shaped x Hvx Hwx) as Hx.
  pose proof (view3_data_shaped y Hvy Hwy) as Hy. rewrite <- HC in Hy.
  rewrite (smooth_elem ema_beta _ 5 C x_orig d t b c Hx Htx Hb Hc).
  rewrite (smooth_elem ema_beta _ 5 C y_orig d t b c Hy Hty Hb Hc).
  destruct (Qgtb ema_beta 0); [|by apply Hagree].
  apply ema_scan_ext. intros t' Ht'. by apply Hagree.
Qed.

Lemma smooth_causal_witness :
  let x_orig := view3 2 5 1 (data Sample.x_steps) in
  let y_orig := view3 1 5 1 (data (Sample.x_unit (A:=spec_float))) in
  elem (of_Q 0) (smooth (9 # 10) 2 x_orig) 0 3 0 =
  elem (of_Q 0) (smooth (9 # 10) 1 y_orig) 0 3 0.
Proof.
  apply (smooth_causal (9 # 10) Sample.x_steps Sample.x_unit (of_Q 0) 0).
  - split; reflexivity.
  - reflexivity.
  - split; reflexivity.
  - reflexivity.
  - reflexivity.
  - cbn. lia.
  - cbn. lia.
  - intros t' b c Ht' Hb Hc.
    assert (t' = 0) as -> by lia. assert (c = 0) as -> by (cbn in Hc; lia).
    destruct b as [|[|[|[|[|b]]]]]; [reflexivity..|lia].
  - lia.
  - cbn. lia.
Defined.

(** X5: with RMS preservation off, each element of [x_edit] is the gain of
    its band times the smoothed element: the scan when [β > 0], the input
    element itself when [β ≤ 0] (gain times input, no smoothing). *)
Theorem edited_is_band_gain {A} `{Scalar A} (cfg : config) (x : tensor A)
    (d : A) (t b c : nat) :
  valid_shape x → tensor_wf x →
  length (PRESET_GAINS cfg) = 5 → PRESET_PRESERVE_RMS cfg = false →
  let T := shape x !!! 0 in
  let C := shape x !!! 2 in
  let x_orig := view3 T 5 C (data x) in
  t < T → b < 5 → c < C →
  ∃ g, PRESET_GAINS cfg !! b = Some g ∧
    elem d (edited cfg T x_orig) t b c =
      fmul (if Qgtb (PRESET_EMA_BETA cfg) 0
            then ema_scan (of_Q (PRESET_EMA_BETA cfg))
                          (λ t', elem d x_orig t' b c) t
            else elem d x_orig t b c)
           (of_Q g).
Proof.
  intros Hv Hwf Hg Hflag T C x_orig Ht Hb Hc.
  pose proof (view3_data_shaped x Hv Hwf) as Hx. fold T C x_orig in Hx.
  destruct (lookup_lt_is_Some_2 (PRESET_GAINS cfg) b) as [g Hgb]; [lia|].
  exists g. split; [done|]. unfold edited. rewrite Hflag.
  rewrite (mul_gains_elem T 5 C _ _ d (of_Q g)); try done.
  - by rewrite (smooth_elem _ T 5 C x_orig d t b c Hx Ht Hb Hc).
  - by apply smooth_shaped.
  - by rewrite list_lookup_fmap, Hgb.
Qed.

Lemma edited_is_band_gain_witness :
  let x_orig := view3 2 5 1 (data Sample.x_steps) in
  ∃ g, PRESET_GAINS preset !! 2 = Some g ∧
    elem (of_Q 0) (edited preset 2 x_orig) 1 2 0 =
      fmul (if Qgtb (PRESET_EMA_BETA preset) 0
            then ema_scan (of_Q (PRESET_EMA_BETA preset))
                          (λ t', elem (of_Q 0) x_orig t' 2 0) 1
            else elem (of_Q 0) x_orig 1 2 0)
           (of_Q g).
Proof.
  apply (edited_is_band_gain preset Sample.x_steps (of_Q 0) 1 2 0).
  - split; reflexivity.
  - reflexivity.
  - reflexivity.
  - reflexivity.
  - cbn. lia.
  - lia.
  - cbn. lia.
Defined.

(** ** The blend at its preset *)

Section BlendPreset.
Variable reduce : list spec_float → spec_float.
Let S : Scalar spec_float := f32_with reduce.
Local Existing Instance S.

Lemma blend_one_elem (a e : spec_float) :
  F32.is_finite a = true → F32.valid e = true →
  keeps_value e (fadd (fmul (fsub (of_Q 1) (of_Q 1)) a) (fmul (of_Q 1) e)).
Proof.
  intros Ha He. cbn.
  change (SFsub F32.prec F32.emax (F32.of_Q 1) (F32.of_Q 1)) with pzero.
  rewrite (mul_one_l e He). apply add_zero_l. by apply mul_zero_finite.
Qed.

(** X11: in binary32, whatever the order in which the reductions add, with
    [α = 1], a global gain of 1 and the clamp off (the presets), on an input
    of numbers and with [x_edit] holding binary32 values, the chain returns
    [x_edit] with the shape of [x], bit for bit (NaN and infinities
    included), except that a [-0.0] may come back as [+0.0]. *)
Theorem edit_replaces_by_edited (cfg : config) (x : tensor spec_float) :
  valid_shape x → tensor_wf x →
  length (PRESET_GAINS cfg) = 5 →
  PRESET_ALPHA_MIX cfg = 1%Q →
  (PRESET_GLOBAL_GAIN cfg == 1)%Q →
  (PRESET_CLAMP_STD cfg <= 0)%Q →
  let T := shape x !!! 0 in
  let x_orig := view3 T 5 (shape x !!! 2) (data x) in
  Forall (λ v, F32.is_finite v = true) (data x) →
  Forall (λ v, F32.valid v = true) (flat3 (edited cfg T x_orig)) →
  ∃ out, edit cfg x = Ok out ∧ shape out = shape x ∧
    Forall2 keeps_value (flat3 (edited cfg T x_orig)) (data out).
Proof.
  intros Hv Hwf Hg Halpha Hgain Hclamp T x_orig Hx He.
  pose proof (view3_data_shaped x Hv Hwf) as Hsh.
  assert (Hd : flat3 x_orig = data x).
  { apply flat3_view3. unfold tensor_wf in Hwf.
    by rewrite Hwf, (valid_shape_numel x Hv). }
  fold T x_orig in Hsh.
  eexists. split.
  { unfold edit. rewrite Hg. cbn [Nat.eqb negb].
    unfold global_gain, clamp_std.
    by rewrite (Qneb_false _ _ Hgain), (Qgtb_false _ _ Hclamp). }
  split; [reflexivity|].
  - cbn [data]. fold T x_orig. unfold blend. rewrite Halpha.
    eapply (Forall2_flat3_zip3_r keeps_value (λ v, F32.is_finite v = true)
              (λ v, F32.valid v = true)); [| exact Hsh | | by rewrite Hd | done].
    + intros a e Ha Hval. by apply blend_one_elem.
    + by apply edited_shaped.
Qed.
End BlendPreset.

Lemma edit_replaces_by_edited_witness :
  let x_orig := view3 2 5 1 (data Fixture.x_signed) in
  ∃ out, edit preset Fixture.x_signed = Ok out ∧
    shape out = [2; 5; 1] ∧
    Forall2 keeps_value (flat3 (edited preset 2 x_orig)) (data out).
Proof.
  apply (edit_replaces_by_edited F32.sum_seq preset Fixture.x_signed).
  - split; reflexivity.
  - reflexivity.
  - reflexivity.
  - reflexivity.
  - reflexivity.
  - discriminate.
  - repeat constructor.
  - vm_compute. repeat constructor.
Defined.

(** ** The clamp *)

Lemma Forall_flat3_map3 {A} (P : A → Prop) (f : A → A)
    (x : list (list (list A))) :
  (∀ v, P (f v)) → Forall P (flat3 (map3 f x)).
Proof.
  intros Hf. unfold flat3, map3.
  induction x as [|p x IH]; [constructor|].
  cbn. apply Forall_app. split; [|exact IH].
  induction p as [|row p IHp]; [constructor|].
  cbn. apply Forall_app. split; [|exact IHp].
  apply Forall_fmap, Forall_forall. intros v _. apply Hf.
Qed.

Section ClampBounds.
Variable reduce : list spec_float → spec_float.
Let S : Scalar spec_float := f32_with reduce.
Local Existing Instance S.

(** [Tensor.clamp(lo, hi)] on one element: the result is never above [hi],
    and is below [lo] only where it is [hi] itself ([hi < lo]); NaN is
    neither above nor below anything. *)
Lemma clamp_bounds (lo hi v : spec_float) :
  fltb hi (clamp lo hi v) = false ∧
  (fltb (clamp lo hi v) lo = false ∨ clamp lo hi v = hi).
Proof.
  unfold clamp.
  destruct (fisnan v) eqn:Hv.
  { destruct v; try discriminate. split; [by destruct hi|left; by destruct lo]. }
  destruct (fisnan lo) eqn:Hlo.
  { destruct lo; try discriminate. split; [by destruct hi|by left]. }
  destruct (fisnan hi) eqn:Hhi.
  { destruct hi; try discriminate. split; [done|by right]. }
  cbn zeta. destruct (fltb v lo) eqn:Hvlo.
  - destruct (fltb hi lo) eqn:Hhl.
    + split; [apply ltb_irrefl|by right].
    + split; [done|left; apply ltb_irrefl].
  - destruct (fltb hi v) eqn:Hhv.
    + split; [apply ltb_irrefl|by right].
    + split; [done|by left].
Qed.

(** X9: in binary32, whatever the order in which the reductions add, with a
    clamp width [k > 0] and [lo], [hi] the bounds the stage computes from its
    input, no element of the clamped tensor is above [hi], and none is below
    [lo] unless it is [hi] itself; this holds with NaN among the elements or
    the bounds, and when rounding makes [lo] and [hi] meet. *)
Theorem clamp_std_bounds (k : Q) (x_mixed : list (list (list spec_float))) :
  (0 < k)%Q →
  let mean := mean (flat3 x_mixed) in
  let std := clamp_min (std (flat3 x_mixed)) (of_Q eps_default) in
  let lo := fsub mean (fmul (of_Q k) std) in
  let hi := fadd mean (fmul (of_Q k) std) in
  Forall (λ v, fltb hi v = false ∧ (fltb v lo = false ∨ v = hi))
    (flat3 (clamp_std k x_mixed)).
Proof.
  intros Hk mean std lo hi. unfold clamp_std. rewrite (Qgtb_true _ _ Hk).
  apply Forall_flat3_map3. intros v. apply clamp_bounds.
Qed.
End ClampBounds.

Lemma clamp_std_bounds_witness :
  let x := view3 2 5 1 (data Sample.x_steps) in
  let mean := mean (flat3 x) in
  let std := clamp_min (std (flat3 x)) (of_Q eps_default) in
  let lo := fsub mean (fmul (of_Q (1 # 2)) std) in
  let hi := fadd mean (fmul (of_Q (1 # 2)) std) in
  Forall (λ v, fltb hi v = false ∧ (fltb v lo = false ∨ v = hi))
    (flat3 (clamp_std (1 # 2) x)).
Proof.
  apply (clamp_std_bounds F32.sum_seq (1 # 2)
           (view3 2 5 1 (data Sample.x_steps))).
  reflexivity.
Defined.

(** ** The loudness gate: range, thresholds and input formats *)

(** A binary32 square root is never below zero. *)
Lemma sqrt_not_negative (y : spec_float) : not_negative (fsqrt y) = true.
Proof.
  destruct y as [s|[]| |[] m e]; try done. cbn. unfold SFsqrt.
  destruct (SFsqrt_core_binary F32.prec F32.emax (Z.pos m) e) as [[mz ez] lz].
  apply binary_round_aux_not_negative.
Qed.

Lemma calculate_rms_not_below_zero (t : tensor spec_float) (s : bool) :
  fltb (_calculate_rms t) (S754_zero s) = false.
Proof.
  apply not_negative_ltb_zero. unfold _calculate_rms.
  destruct (fisnan (raw_rms t) || fisinf (raw_rms t)); [done|].
  apply sqrt_not_negative.
Qed.

(** X12: in binary32, for every buffer (empty, huge or holding NaN), the
    value returned by [_calculate_rms] is neither NaN nor infinite nor below
    zero. *)
Theorem calculate_rms_is_finite (t : tensor spec_float) :
  fisnan (_calculate_rms t) = false ∧ fisinf (_calculate_rms t) = false ∧
  not_negative (_calculate_rms t) = true.
Proof.
  unfold _calculate_rms.
  destruct (fisnan (raw_rms t) || fisinf (raw_rms t)) eqn:Hnf; [done|].
  apply orb_false_iff in Hnf as [Hnan Hinf].
  split; [done|]. split; [done|]. apply sqrt_not_negative.
Qed.

(** X13: in binary32, with the threshold at 0.0 (its minimum) no audio is
    silent, not even a buffer of zeros: [analyze] returns [invert] itself,
    [False] in the normal mode and [True] in the inverted one. *)
Theorem analyze_threshold_zero
    (torch_tensor : pyobj spec_float → option (tensor spec_float))
    (audio : pyobj spec_float) (t : tensor spec_float) (s invert : bool) :
  _convert_to_tensor torch_tensor audio = Ok t →
  analyze torch_tensor audio (S754_zero s) invert = Ok invert.
Proof.
  intros Hconv. unfold analyze. rewrite Hconv.
  rewrite calculate_rms_not_below_zero. by destruct invert.
Qed.

Lemma analyze_threshold_zero_witness :
  analyze torch_tensor_nested Sample.audio_silence pzero false = Ok false.
Proof.
  apply (analyze_threshold_zero torch_tensor_nested Sample.audio_silence
           Sample.silence false false).
  reflexivity.
Defined.

(** The threshold is a Python [float]: [[0.01]] is rounded to binary32 on
    conversion, below the binary64 [0.01] it is compared with, and is
    silent at threshold [0.01]. *)
Example analyze_python_float_threshold :
  analyze torch_tensor_nested Fixture.audio_quiet (F64.of_Q (1 # 100)) false
    = Ok true.
Proof. vm_compute. reflexivity. Qed.

(** X14: raising the threshold never turns a silent verdict into a loud
    one, the thresholds being compared as the numbers they are (binary64
    or any other format): audio that enables the suppressor at [t1] enables
    it at every [t2 ≥ t1], and in the inverted mode audio that enables it
    at [t2] enables it at every [t1 ≤ t2]. *)
Theorem analyze_threshold_monotone
    (torch_tensor : pyobj spec_float → option (tensor spec_float))
    (audio : pyobj spec_float) (t1 t2 : spec_float) :
  F32.leb t1 t2 = true →
  (analyze torch_tensor audio t1 false = Ok true →
   analyze torch_tensor audio t2 false = Ok true) ∧
  (analyze torch_tensor audio t2 true = Ok true →
   analyze torch_tensor audio t1 true = Ok true).
Proof.
  intros Hle. unfold analyze.
  destruct (_convert_to_tensor torch_tensor audio) as [t|e]; [|done].
  cbn [fltb f32_scalar f32_with]. split; intros Hs; injection Hs as Hs.
  - by rewrite (ltb_leb_trans _ t1 t2 Hs Hle).
  - destruct (F32.ltb (_calculate_rms t) t1) eqn:H1; [|done].
    by rewrite (ltb_leb_trans _ t1 t2 H1 Hle) in Hs.
Qed.

Lemma analyze_threshold_monotone_witness :
  F32.leb (F64.of_Q (1 # 100)) (F64.of_Q (1 # 2)) = true ∧
  analyze torch_tensor_nested Fixture.audio_quiet (F64.of_Q (1 # 2)) false
    = Ok true.
Proof.
  split; [vm_compute; reflexivity|].
  refine (proj1 (analyze_threshold_monotone torch_tensor_nested
                   Fixture.audio_quiet (F64.of_Q (1 # 100)) (F64.of_Q (1 # 2))
                   _) _);
    vm_compute; reflexivity.
Defined.

(** X15: for a two-element list or tuple whose second element is a tensor,
    an array or a list, the first element is never read: any two tags give
    the same outcome, a list and a tuple give the same outcome, and when the
    second element is a tensor or an array the outcome is that of passing it
    alone. *)
Theorem pair_tag_ignored {A} `{Scalar A}
    (torch_tensor : pyobj A → option (tensor A))
    (tag tag' audio_data : pyobj A) (threshold : A) (invert : bool) :
  is_array_or_list audio_data = true →
  analyze torch_tensor (PyTuple [tag; audio_data]) threshold invert
    = analyze torch_tensor (PyTuple [tag'; audio_data]) threshold invert ∧
  analyze torch_tensor (PyList [tag; audio_data]) threshold invert
    = analyze torch_tensor (PyTuple [tag; audio_data]) threshold invert ∧
  (match audio_data with
   | PyTensor _ | PyNdarray _ =>
       analyze torch_tensor (PyTuple [tag; audio_data]) threshold invert
         = analyze torch_tensor audio_data threshold invert
   | _ => True
   end).
Proof.
  intros Hd. unfold analyze, _convert_to_tensor, convert_sequence.
  rewrite Hd. by destruct audio_data.
Qed.

Lemma pair_tag_ignored_witness :
  analyze torch_tensor_nested (Fixture.audio_pair 44100) (of_Q (1 # 100)) false
    = analyze torch_tensor_nested (Fixture.audio_pair 48000)
        (of_Q (1 # 100)) false ∧
  analyze torch_tensor_nested
      (PyList [PyNum (of_Q 44100); PyTensor Sample.silence])
      (of_Q (1 # 100)) false
    = analyze torch_tensor_nested (Fixture.audio_pair 44100)
        (of_Q (1 # 100)) false ∧
  analyze torch_tensor_nested (Fixture.audio_pair 44100) (of_Q (1 # 100)) false
    = analyze torch_tensor_nested (PyTensor Sample.silence)
        (of_Q (1 # 100)) false.
Proof.
  apply (pair_tag_ignored torch_tensor_nested (PyNum (of_Q 44100))
           (PyNum (of_Q 48000)) (PyTensor Sample.silence) (of_Q (1 # 100))
           false).
  reflexivity.
Defined.

(** X16: [analyze] raises the [ValueError] for an unsupported format exactly
    when the input is neither a tensor, an array, a list nor a tuple and
    [torch.tensor] rejects it; a list or tuple that [torch.tensor] rejects
    never raises it (the library's own exception escapes instead). *)
Theorem unsupported_format_iff {A} `{Scalar A}
    (torch_tensor : pyobj A → option (tensor A))
    (audio : pyobj A) (threshold : A) (invert : bool) :
  analyze torch_tensor audio threshold invert
    = Raise (ValueError UnsupportedFormat)
  ↔ (match audio with PyNum _ | PyNone => True | _ => False end) ∧
    torch_tensor audio = None.
Proof.
  unfold analyze, _convert_to_tensor, convert_sequence.
  destruct audio as [v|x|x|items|items|]; cbn.
  - destruct (torch_tensor (PyNum v)); split; (try done); intros [_ ?]; done.
  - split; [done|tauto].
  - split; [done|tauto].
  - split; [|tauto]. intros Heq. exfalso. revert Heq.
    destruct items as [|a [|b [|? ?]]];
      repeat (match goal with
              | |- context [torch_tensor ?o] => destruct (torch_tensor o)
              | |- context [is_array_or_list ?o] => destruct o; cbn
              end); done.
  - split; [|tauto]. intros Heq. exfalso. revert Heq.
    destruct items as [|a [|b [|? ?]]];
      repeat (match goal with
              | |- context [torch_tensor ?o] => destruct (torch_tensor o)
              | |- context [is_array_or_list ?o] => destruct o; cbn
              end); done.
  - destruct (torch_tensor PyNone); split; (try done); intros [_ ?]; done.
Qed.


